(** * Tab Orchestra: relay server and extension-side reconciliation

    A shallow embedding of [server.js] (class [TabOrchestraServer]), of the
    service worker (tab reconciliation and fallback clustering) and of the
    offscreen document (validation of the classifier's response), with the
    properties of the specification stated and settled against them. *)

From Stdlib Require Import Ascii String ZArith Lia Permutation.
From stdpp Require Import base decidable option list strings numbers sorting.

Local Open Scope string_scope.
Local Open Scope nat_scope.
Local Open Scope list_scope.

(** ** Insertion-ordered containers

    A JavaScript [Set] and [Map] iterate in insertion order; [add] and [set]
    on a present key keep its position, [delete] removes it. They are lists
    here: a [Set] is a list of its elements, a [Map] a list of entries, both
    read and written at the first entry of a key. *)

Section ordered.
Context {K : Type} `{EqDecision K}.

Definition jset_add (x : K) (s : list K) : list K :=
  if decide (x ∈ s) then s else s ++ [x].

Definition jset_delete (x : K) (s : list K) : list K :=
  filter (λ y, y ≠ x) s.

Context {V : Type}.

Fixpoint jmap_get (k : K) (m : list (K * V)) : option V :=
  match m with
  | [] => None
  | (k', v) :: m' => if decide (k = k') then Some v else jmap_get k m'
  end.

Fixpoint jmap_set (k : K) (v : V) (m : list (K * V)) : list (K * V) :=
  match m with
  | [] => [(k, v)]
  | (k', v') :: m' =>
      if decide (k = k') then (k, v) :: m' else (k', v') :: jmap_set k v m'
  end.

Definition jmap_delete (k : K) (m : list (K * V)) : list (K * V) :=
  filter (λ e, e.1 ≠ k) m.

Definition jmap_keys (m : list (K * V)) : list K := m.*1.
End ordered.

(** ** Wire data *)

(** A shared-tab record as it travels: a JSON object, any field of which
    may be missing. *)
Record TabData := mkTab {
  tab_id : option Z;
  title : option string;
  url : option string;
  summary : option string;
  timestamp : option Z;
  groupId : option string;
  sharedBy : option string
}.

#[export] Instance TabData_eq_dec : EqDecision TabData.
Proof. solve_decision. Defined.

(** The object [{}]. *)
Definition emptyTab : TabData := mkTab None None None None None None None.

(** The last [n] elements, JavaScript's [a.slice(-n)] for [n > 0]. *)
Definition slice_last {A} (n : nat) (a : list A) : list A :=
  drop (length a - n) a.

(** ** The relay server ([server.js]) *)

Module Server.

Inductive ReadyState := CONNECTING | OPEN | CLOSING | CLOSED.

#[export] Instance ReadyState_eq_dec : EqDecision ReadyState.
Proof. solve_decision. Defined.

(** An annotation payload is opaque to the server: its JSON text, or
    [None] when the envelope carries no [data]. *)
Record Annotation := mkAnnotation {
  ann_data : option string;
  createdBy : string;
  ann_timestamp : Z
}.

Module Client.
Record t := mk {
  ws : ReadyState;
  groups : list string;
  lastSeen : Z
}.
End Client.

Module Group.
Record t := mk {
  id : string;
  members : list string;
  sharedTabs : list TabData;
  annotations : list Annotation;
  created : Z
}.
End Group.

Record Server := mkServer {
  groups : list (string * Group.t);
  clients : list (string * Client.t)
}.

(** Envelopes the server emits. *)
Inductive Outbound :=
| welcome (clientId : string)
| group_joined (groupId : string) (memberCount : nat)
| group_data (sharedTabs : list TabData) (annotations : list Annotation)
| member_joined (clientId : string) (memberCount : nat)
| member_left (clientId : string) (memberCount : nat)
| tab_shared (data : TabData)
| annotation_update (data : option string) (createdBy : string)
| ai_cluster_update (data : option string) (updatedBy : string)
| pong.

(** Envelopes the server receives; [unrecognized] is any other [type]. *)
Inductive Inbound :=
| heartbeat
| join_group (groupId : string)
| leave_group (groupId : string)
| share_tab (data : option TabData)
| annotation_created (data : option string)
| ai_cluster_update_request (data : option string)
| unrecognized (type : string).

(** A handler run: the registries it leaves, the envelopes it wrote, each
    with the connection it went to, and whether it returned or threw. *)
Inductive Completion := Returned | Threw.

Record Result := mkResult {
  state : Server;
  sent : list (string * Outbound);
  completion : Completion
}.

Definition ret (s : Server) : Result := mkResult s [] Returned.

Definition emit (out : list (string * Outbound)) (s : Server) : Result :=
  mkResult s out Returned.

Definition throw (s : Server) : Result := mkResult s [] Threw.

(** Sequencing: the rest runs only when the first part returned. *)
Definition andThen (r : Result) (k : Server → Result) : Result :=
  match completion r with
  | Threw => r
  | Returned =>
      let r' := k (state r) in
      mkResult (state r') (sent r ++ sent r') (completion r')
  end.

Infix ">>>" := andThen (at level 61, left associativity).

(** [set.forEach(f)]. *)
Definition forEach {A} (f : A → Server → Result) (l : list A) (s : Server) : Result :=
  foldl (λ r x, r >>> f x) (ret s) l.

(** [ws.send(str)]: the envelope goes out when the socket is open, and
    nothing is written otherwise. *)
Definition send (c : string) (client : Client.t) (m : Outbound)
  : list (string * Outbound) :=
  if decide (Client.ws client = OPEN) then [(c, m)] else [].

Definition timeout : Z := 5 * 60 * 1000.
Definition graceWindow : Z := 60 * 60 * 1000.
Definition historyLimit : nat := 100.

(** [broadcastToGroup]: to every member but the excluded one, in the
    order of the member set, when the member is registered and its socket
    is open. *)
Definition broadcastToGroup (groupId : string) (message : Outbound)
    (excludeClientId : option string) (s : Server) : Result :=
  match jmap_get groupId (groups s) with
  | None => ret s
  | Some group =>
      emit (flat_map (λ memberId,
              if decide (excludeClientId = Some memberId) then []
              else match jmap_get memberId (clients s) with
                   | Some client => send memberId client message
                   | None => []
                   end) (Group.members group)) s
  end.

(** [handleHeartbeat]: the [pong] and the refreshed time, on an open
    socket only. *)
Definition handleHeartbeat (clientId : string) (now : Z) (s : Server) : Result :=
  match jmap_get clientId (clients s) with
  | Some client =>
      if decide (Client.ws client = OPEN) then
        mkResult
          (mkServer (groups s)
             (jmap_set clientId
                (Client.mk (Client.ws client) (Client.groups client) now)
                (clients s)))
          [(clientId, pong)] Returned
      else ret s
  | None => ret s
  end.

(** [handleJoinGroup]. [group] is the group found under [groupId], or
    the one the handler has just created and stored; the membership is
    written on both sides, the joiner is answered, the others are told. *)
Definition handleJoinGroup (clientId groupId : string) (now : Z) (s : Server)
  : Result :=
  match jmap_get clientId (clients s) with
  | None => ret s
  | Some client =>
      let group :=
        default (Group.mk groupId [] [] [] now) (jmap_get groupId (groups s)) in
      let group' :=
        Group.mk (Group.id group) (jset_add clientId (Group.members group))
          (Group.sharedTabs group) (Group.annotations group)
          (Group.created group) in
      let client' :=
        Client.mk (Client.ws client) (jset_add groupId (Client.groups client))
          (Client.lastSeen client) in
      let s' :=
        mkServer (jmap_set groupId group' (groups s))
          (jmap_set clientId client' (clients s)) in
      emit (send clientId client'
              (group_joined groupId (length (Group.members group')))
            ++ send clientId client'
              (group_data (Group.sharedTabs group') (Group.annotations group'))) s' >>>
      broadcastToGroup groupId
        (member_joined clientId (length (Group.members group'))) (Some clientId)
  end.

(** [handleLeaveGroup]: both sides of the membership are deleted, the
    remaining members are told, and a group left without members is
    removed there and then. *)
Definition handleLeaveGroup (clientId groupId : string) (s : Server) : Result :=
  match jmap_get clientId (clients s), jmap_get groupId (groups s) with
  | Some client, Some group =>
      let group' :=
        Group.mk (Group.id group) (jset_delete clientId (Group.members group))
          (Group.sharedTabs group) (Group.annotations group)
          (Group.created group) in
      let client' :=
        Client.mk (Client.ws client) (jset_delete groupId (Client.groups client))
          (Client.lastSeen client) in
      let s' :=
        mkServer (jmap_set groupId group' (groups s))
          (jmap_set clientId client' (clients s)) in
      broadcastToGroup groupId
        (member_left clientId (length (Group.members group'))) (Some clientId) s' >>>
      (λ s1,
        if decide (length (Group.members group') = 0) then
          ret (mkServer (jmap_delete groupId (groups s1)) (clients s1))
        else ret s1)
  | _, _ => ret s
  end.

(** [{...tabData, sharedBy: clientId, timestamp: Date.now()}]; spreading
    a missing [tabData] gives no fields. *)
Definition completeTabData (tabData : option TabData) (clientId : string)
    (now : Z) : TabData :=
  let t := default emptyTab tabData in
  mkTab (tab_id t) (title t) (url t) (summary t) (Some now) (groupId t)
    (Some clientId).

(** [push], then [slice(-100)] when over the limit. *)
Definition pushShared (r : TabData) (h : list TabData) : list TabData :=
  let h' := h ++ [r] in
  if decide (historyLimit < length h')%nat then slice_last historyLimit h' else h'.

(** The body of the [forEach] of [handleShareTab] for one group. Its last
    statement logs [tabData.title], which throws when [tabData] is
    missing: the group has the record by then and both broadcasts are
    out, and the groups after it are not reached. *)
Definition shareInto (clientId : string) (tabData : option TabData) (now : Z)
    (groupId : string) (s : Server) : Result :=
  match jmap_get groupId (groups s) with
  | None => ret s
  | Some group =>
      let completeTab := completeTabData tabData clientId now in
      let group' :=
        Group.mk (Group.id group) (Group.members group)
          (pushShared completeTab (Group.sharedTabs group))
          (Group.annotations group) (Group.created group) in
      let s' := mkServer (jmap_set groupId group' (groups s)) (clients s) in
      broadcastToGroup groupId (tab_shared completeTab) None s' >>>
      broadcastToGroup groupId
        (group_data (Group.sharedTabs group') (Group.annotations group')) None >>>
      (λ s1, match tabData with Some _ => ret s1 | None => throw s1 end)
  end.

(** [handleShareTab]: one round per group of the sender. *)
Definition handleShareTab (clientId : string) (tabData : option TabData)
    (now : Z) (s : Server) : Result :=
  match jmap_get clientId (clients s) with
  | None => ret s
  | Some client => forEach (shareInto clientId tabData now) (Client.groups client) s
  end.

(** [handleAnnotation]: the annotation is logged in every group of the
    sender and relayed to the other members. *)
Definition handleAnnotation (clientId : string) (annotationData : option string)
    (now : Z) (s : Server) : Result :=
  match jmap_get clientId (clients s) with
  | None => ret s
  | Some client =>
      forEach (λ groupId s,
        match jmap_get groupId (groups s) with
        | None => ret s
        | Some group =>
            let group' :=
              Group.mk (Group.id group) (Group.members group)
                (Group.sharedTabs group)
                (Group.annotations group
                   ++ [mkAnnotation annotationData clientId now])
                (Group.created group) in
            broadcastToGroup groupId (annotation_update annotationData clientId)
              (Some clientId)
              (mkServer (jmap_set groupId group' (groups s)) (clients s))
        end) (Client.groups client) s
  end.

(** [handleClusterUpdate]: relayed to the other members, not stored. *)
Definition handleClusterUpdate (clientId : string) (clusterData : option string)
    (s : Server) : Result :=
  match jmap_get clientId (clients s) with
  | None => ret s
  | Some client =>
      forEach (λ groupId,
        broadcastToGroup groupId (ai_cluster_update clusterData clientId)
          (Some clientId)) (Client.groups client) s
  end.

(** [handleClientDisconnect]: a leave for every group of the connection,
    then the connection is forgotten. *)
Definition handleClientDisconnect (clientId : string) (s : Server) : Result :=
  match jmap_get clientId (clients s) with
  | None => ret s
  | Some client =>
      forEach (handleLeaveGroup clientId) (Client.groups client) s >>>
      (λ s1, ret (mkServer (groups s1) (jmap_delete clientId (clients s1))))
  end.

(** [handleMessage]: the time of receipt is recorded before the type of
    the envelope is looked at. The clock is read once per envelope. *)
Definition handleMessage (clientId : string) (message : Inbound) (now : Z)
    (s : Server) : Result :=
  match jmap_get clientId (clients s) with
  | None => ret s
  | Some client =>
      let s' :=
        mkServer (groups s)
          (jmap_set clientId
             (Client.mk (Client.ws client) (Client.groups client) now)
             (clients s)) in
      match message with
      | heartbeat => handleHeartbeat clientId now s'
      | join_group groupId => handleJoinGroup clientId groupId now s'
      | leave_group groupId => handleLeaveGroup clientId groupId s'
      | share_tab data => handleShareTab clientId data now s'
      | annotation_created data => handleAnnotation clientId data now s'
      | ai_cluster_update_request data => handleClusterUpdate clientId data s'
      | unrecognized _ => ret s'
      end
  end.

(** The [connection] callback, for the identifier [generateClientId]
    returned. *)
Definition handleConnection (clientId : string) (ws : ReadyState) (now : Z)
    (s : Server) : Result :=
  emit (send clientId (Client.mk ws [] now) (welcome clientId))
    (mkServer (groups s) (jmap_set clientId (Client.mk ws [] now) (clients s))).

(** One run of the interval callback of [startCleanupTimer]: the
    connections silent for more than [timeout] are disconnected, in the
    order of the [Map], then the groups that are empty and older than
    [graceWindow] are removed. *)
Definition removeInactiveClients (now : Z) (s : Server) : Result :=
  forEach (λ clientId s,
    match jmap_get clientId (clients s) with
    | Some client =>
        if decide (timeout < now - Client.lastSeen client)%Z
        then handleClientDisconnect clientId s else ret s
    | None => ret s
    end) (jmap_keys (clients s)) s.

Definition removeOldEmptyGroups (now : Z) (s : Server) : Result :=
  ret (mkServer
         (filter (λ e, ¬ (length (Group.members e.2) = 0
                          ∧ (graceWindow < now - Group.created e.2)%Z))
            (groups s))
         (clients s)).

Definition cleanup (now : Z) (s : Server) : Result :=
  removeInactiveClients now s >>> removeOldEmptyGroups now.

(** *** Vocabulary of the properties *)

(** The group object after [members.add] and after [members.delete]. *)
Definition joinedGroup (clientId : string) (group : Group.t) : Group.t :=
  Group.mk (Group.id group) (jset_add clientId (Group.members group))
    (Group.sharedTabs group) (Group.annotations group) (Group.created group).

Definition leftGroup (clientId : string) (group : Group.t) : Group.t :=
  Group.mk (Group.id group) (jset_delete clientId (Group.members group))
    (Group.sharedTabs group) (Group.annotations group) (Group.created group).

(** [P] is kept by a handler, whether it returned or threw. *)
Definition preserves (P : Server → Prop) (f : Server → Result) : Prop :=
  ∀ s, P s → P (state (f s)).

(** The connection is in the member set of the group. *)
Definition member (clientId groupId : string) (s : Server) : Prop :=
  ∃ group, jmap_get groupId (groups s) = Some group
           ∧ clientId ∈ Group.members group.

(** The group is in the set of groups the connection joined. *)
Definition joined (clientId groupId : string) (s : Server) : Prop :=
  ∃ client, jmap_get clientId (clients s) = Some client
            ∧ groupId ∈ Client.groups client.

(** A leave takes effect when both the connection and the group are
    known. *)
Definition known (c g : string) (s : Server) : Prop :=
  is_Some (jmap_get c (clients s)) ∧ is_Some (jmap_get g (groups s)).

(** Two states with the same member sets and the same joined-group
    sets. *)
Definition sameRegistry (s s' : Server) : Prop :=
  (∀ g, Group.members <$> jmap_get g (groups s')
        = Group.members <$> jmap_get g (groups s))
  ∧ (∀ c, Client.groups <$> jmap_get c (clients s')
          = Client.groups <$> jmap_get c (clients s)).

Definition symmetric (s : Server) : Prop :=
  ∀ c g, member c g s ↔ joined c g s.

(** A [Map] holds one entry per key. *)
Definition wellFormed (s : Server) : Prop :=
  NoDup (jmap_keys (groups s)) ∧ NoDup (jmap_keys (clients s)).

Definition consistent (s : Server) : Prop := wellFormed s ∧ symmetric s.

(** No group is without members. *)
Definition populated (s : Server) : Prop :=
  ∀ g group, jmap_get g (groups s) = Some group → Group.members group ≠ [].


(** The history of a group, empty for a group that does not exist. *)
Definition history (groupId : string) (s : Server) : list TabData :=
  from_option Group.sharedTabs [] (jmap_get groupId (groups s)).

(** What reaches the server: the operations of the registry by
    themselves, an envelope from a connection, the tick of the cleanup
    timer. A handler that threw left the registries as they were at the
    throw, and the server goes on from there. *)
Inductive Event :=
| Join (clientId groupId : string) (now : Z)
| Leave (clientId groupId : string)
| Disconnect (clientId : string)
| Message (clientId : string) (message : Inbound) (now : Z)
| Sweep (now : Z).

Definition step (e : Event) (s : Server) : Result :=
  match e with
  | Join c g now => handleJoinGroup c g now s
  | Leave c g => handleLeaveGroup c g s
  | Disconnect c => handleClientDisconnect c s
  | Message c m now => handleMessage c m now s
  | Sweep now => cleanup now s
  end.

Definition run (es : list Event) (s : Server) : Server :=
  foldl (λ s e, state (step e s)) s es.

(** How many records one [handleShareTab] appends to the history of
    [groupId], given the groups of the sender in iteration order: one
    for each of them that is [groupId] and exists, up to the round that
    throws. *)
Fixpoint deliveries (tabData : option TabData) (senderGroups : list string)
    (groupId : string) (s : Server) : nat :=
  match senderGroups with
  | [] => 0
  | g :: rest =>
      match jmap_get g (groups s) with
      | None => deliveries tabData rest groupId s
      | Some _ =>
          (if decide (g = groupId) then 1 else 0)
          + (match tabData with
             | Some _ => deliveries tabData rest groupId s
             | None => 0
             end)
      end
  end%nat.

(** Records pushed one after the other. *)
Definition pushAll (h rs : list TabData) : list TabData :=
  foldl (λ h r, pushShared r h) h rs.

(** Same connections, same group identifiers. *)
Definition sameGroups (s s' : Server) : Prop :=
  clients s' = clients s
  ∧ ∀ g, is_Some (jmap_get g (groups s')) ↔ is_Some (jmap_get g (groups s)).

(** One call of [handleShareTab]: sender, payload, clock. *)
Definition Share : Type := string * option TabData * Z.

Definition share (op : Share) (s : Server) : Server :=
  state (handleShareTab op.1.1 op.1.2 op.2 s).

(** The records a sequence of calls delivers into [groupId], in order
    of arrival. *)
Definition arrivalsInto (groupId : string) (ops : list Share) (s : Server)
  : list TabData :=
  flat_map (λ op : Share,
    replicate
      (deliveries op.1.2
         (from_option Client.groups [] (jmap_get op.1.1 (clients s))) groupId s)
      (completeTabData op.1.2 op.1.1 op.2)) ops.

(** *** Statistics *)

Record Stats := mkStats {
  connectedClients : nat;
  activeGroups : nat;
  totalSharedTabs : nat
}.

(** [getStats]: the sizes of the two maps and the [reduce] over the
    histories. *)
Definition getStats (s : Server) : Stats :=
  mkStats (length (clients s)) (length (groups s))
    (foldl (λ sum e, sum + length (Group.sharedTabs e.2)) 0 (groups s)).

(** *** Vocabulary of the further properties *)

(** No history is over the limit. *)
Definition bounded (s : Server) : Prop :=
  Forall (λ e, length (Group.sharedTabs e.2) ≤ historyLimit) (groups s).

(** The annotation log of a group, empty for a group that does not
    exist. *)
Definition annotationsOf (groupId : string) (s : Server) : list Annotation :=
  from_option Group.annotations [] (jmap_get groupId (groups s)).

(** The connection is registered and its socket is open. *)
Definition reachable (clientId : string) (s : Server) : Prop :=
  ∃ client, jmap_get clientId (clients s) = Some client
            ∧ Client.ws client = OPEN.

(** Every connection of [s'] is one of [s], with the same socket. *)
Definition narrows (s s' : Server) : Prop :=
  ∀ c client', jmap_get c (clients s') = Some client' →
    ∃ client, jmap_get c (clients s) = Some client
              ∧ Client.ws client = Client.ws client'.

(** A run that started in [s] wrote to reachable connections of [s]
    only, and registered nobody. *)
Definition polite (s : Server) (r : Result) : Prop :=
  narrows s (state r) ∧ Forall (λ e, reachable e.1 s) (sent r).

(** The connection has been silent for longer than [timeout]. *)
Definition stale (now : Z) (client : Client.t) : Prop :=
  (timeout < now - Client.lastSeen client)%Z.

#[export] Instance stale_dec now client : Decision (stale now client).
Proof. unfold stale. apply _. Defined.

(** *** Sample registries *)

(** Two connections, no group yet. *)
Definition twoClients : Server :=
  mkServer [] [("a", Client.mk OPEN [] 0); ("b", Client.mk OPEN [] 0)].

Definition sampleTab : TabData :=
  mkTab (Some 7%Z) (Some "Example") (Some "https://example.org/")
    (Some "No summary available") (Some 1000%Z) (Some "g") (Some "a").

(** One connection, alone in a group that has one shared tab. *)
Definition oneGroup : Server :=
  mkServer [("g", Group.mk "g" ["a"] [sampleTab] [] 0)]
    [("a", Client.mk OPEN ["g"] 0)].

(** The same with a second connection, which has joined nothing. *)
Definition oneGroupAndNewcomer : Server :=
  mkServer (groups oneGroup) (clients oneGroup ++ [("b", Client.mk OPEN [] 0)]).

(** Two members of one group; the first was last heard of at 0, the
    second at 600000. *)
Definition silentAndAwake : Server :=
  mkServer [("g", Group.mk "g" ["a"; "b"] [] [] 0)]
    [("a", Client.mk OPEN ["g"] 0); ("b", Client.mk OPEN ["g"] 600000)].

(** The connection shares a tab a hundred and one times, one
    millisecond apart. *)
Definition manyShares : list Share :=
  (λ i, ("a", Some sampleTab, Z.of_nat i)) <$> seq 1 101.

End Server.

(** ** Clusters and the classifier's answer *)

(** A cluster as it is stored and published. The name of a cluster built
    from the classifier's answer is whatever the answer carried, possibly
    nothing. *)
Module Cluster.
Record t := mk {
  name : option string;
  tabs : list TabData;
  theme : string
}.
End Cluster.

(** What the offscreen document answers to a [categorize-tabs] request:
    [{clusters}] or [{error}]. *)
Record Response := mkResponse {
  resp_error : option string;
  resp_clusters : option (list Cluster.t)
}.

(** Truthiness of a string-valued field: present and not empty. *)
Definition truthy (v : option string) : bool :=
  match v with
  | Some s => negb (bool_decide (s = ""))
  | None => false
  end.

(** ** Plain objects used as maps

    [simpleGroupByDomain] keys an object literal by host name. Reading a
    key that the object does not own falls through to [Object.prototype],
    and [Object.entries] lists the keys that are array indices first, in
    ascending order, then the others in creation order. *)

Module JsObject.

Definition prototypeKeys : list string :=
  [ "constructor"; "__proto__"; "hasOwnProperty"; "isPrototypeOf";
    "propertyIsEnumerable"; "toLocaleString"; "toString"; "valueOf";
    "__defineGetter__"; "__defineSetter__"; "__lookupGetter__";
    "__lookupSetter__" ].

Definition inherited (k : string) : bool := bool_decide (k ∈ prototypeKeys).

Definition digit (a : ascii) : option N :=
  let n := N_of_ascii a in
  if ((48 <=? n) && (n <=? 57))%N then Some (n - 48)%N else None.

Fixpoint digits (s : string) (acc : N) : option N :=
  match s with
  | EmptyString => Some acc
  | String a s' =>
      match digit a with
      | Some d => digits s' (10 * acc + d)%N
      | None => None
      end
  end.

(** A key is an array index when it is the canonical decimal form of an
    integer below [2^32 - 1]. *)
Definition arrayIndex (k : string) : option N :=
  match k with
  | EmptyString => None
  | String a rest =>
      if bool_decide (a = "0"%char) && negb (bool_decide (rest = ""))
      then None
      else match digits k 0 with
           | Some n => if (n <? 2 ^ 32 - 1)%N then Some n else None
           | None => None
           end
  end.

Definition indexLe {V} (a b : N * (string * V)) : Prop := (a.1 ≤ b.1)%N.

#[export] Instance indexLe_dec {V} (a b : N * (string * V)) :
  Decision (indexLe a b).
Proof. unfold indexLe. apply _. Defined.

Definition indexed {V} (o : list (string * V)) : list (N * (string * V)) :=
  omap (λ e, (λ n, (n, e)) <$> arrayIndex e.1) o.

Definition entries {V} (o : list (string * V)) : list (string * V) :=
  (merge_sort indexLe (indexed o)).*2
  ++ filter (λ e, arrayIndex e.1 = None) o.

End JsObject.

(** ** The service worker: reconciliation and fallback clustering *)

Module Worker.

Record Store := mkStore {
  sharedTabs : list TabData;
  aiClusters : list Cluster.t
}.

(** What a handler does besides writing the store: messages to the UI
    and the start of a classification request for the stored tabs. *)
Inductive Effect :=
| duplicate_tab_warning (url title : option string) (originalTimestamp : option Z)
| clusters_updated (data : list Cluster.t)
| categorize_tabs (tabs : list TabData).

Section worker.
(** [new URL(u).hostname], [None] when the constructor throws. *)
Variable hostname : string → option string.

(** The body of the [forEach] of [simpleGroupByDomain]. A host name
    that is a key of [Object.prototype] reads as a non-array, [push]
    on it throws inside the [try], and the tab lands in ["Other"]
    like one whose URL did not parse. *)
Definition addTab (domainGroups : list (string * list TabData))
    (tab : TabData) : list (string * list TabData) :=
  let other :=
    jmap_set "Other" (default [] (jmap_get "Other" domainGroups) ++ [tab])
      domainGroups in
  match url tab ≫= hostname with
  | Some domain =>
      match jmap_get domain domainGroups with
      | Some group => jmap_set domain (group ++ [tab]) domainGroups
      | None =>
          if JsObject.inherited domain then other
          else jmap_set domain [tab] domainGroups
      end
  | None => other
  end.

Definition simpleGroupByDomain (tabs : list TabData) : list Cluster.t :=
  (λ e, Cluster.mk (Some e.1) e.2 ("Content from " +:+ e.1))
    <$> JsObject.entries (foldl addTab [] tabs).

(** [domainGroups[key].push(tab)] after making sure the key holds
    an array. *)
Definition pushTo (key : string) (tab : TabData)
    (domainGroups : list (string * list TabData))
  : list (string * list TabData) :=
  jmap_set key (default [] (jmap_get key domainGroups) ++ [tab]) domainGroups.

(** The key a tab is filed under in an object that owns no key of
    [Object.prototype]. *)
Definition keyOf (tab : TabData) : string :=
  match url tab ≫= hostname with
  | Some domain => if JsObject.inherited domain then "Other" else domain
  | None => "Other"
  end.

(** The object owns no key of [Object.prototype]. *)
Definition ownsNoInherited (o : list (string * list TabData)) : Prop :=
  Forall (λ e, JsObject.inherited e.1 = false) o.

(** No key holds an empty array, and every tab is under its key. *)
Definition filedByKey (o : list (string * list TabData)) : Prop :=
  Forall (λ e, e.2 ≠ [] ∧ Forall (λ t, keyOf t = e.1) e.2) o.

(** [computeClusters]: the fallback grouping, and whether
    [updateAIClusters] was started. *)
Definition computeClusters (sharedTabs : list TabData) : list Cluster.t * bool :=
  match sharedTabs with
  | [] => ([], false)
  | _ => (simpleGroupByDomain sharedTabs, true)
  end.

(** [Math.abs(a - b) > 1000] and [Math.abs(a - b) <= 1000]; both are
    false when a timestamp is missing. *)
Definition farApart (a b : option Z) : bool :=
  match a, b with
  | Some x, Some y => bool_decide (1000 < Z.abs (x - y))%Z
  | _, _ => false
  end.

Definition within (a b : option Z) : bool :=
  match a, b with
  | Some x, Some y => bool_decide (Z.abs (x - y) ≤ 1000)%Z
  | _, _ => false
  end.

Definition isDuplicateOf (tabData tab : TabData) : bool :=
  bool_decide (url tab = url tabData)
  && bool_decide (groupId tab = groupId tabData)
  && farApart (timestamp tab) (timestamp tabData).

Definition isEchoOf (tabData tab : TabData) : bool :=
  bool_decide (url tab = url tabData)
  && within (timestamp tab) (timestamp tabData).

(** The storage callback of [handleSharedTab]. *)
Definition handleSharedTab (tabData : TabData) (st : Store)
  : Store * list Effect :=
  match List.find (isDuplicateOf tabData) (sharedTabs st) with
  | Some existingTab =>
      (st, [duplicate_tab_warning (url tabData) (title tabData)
              (timestamp existingTab)])
  | None =>
      if existsb (isEchoOf tabData) (sharedTabs st) then (st, [])
      else
        let sharedTabs' := sharedTabs st ++ [tabData] in
        let '(clusters, ai) := computeClusters sharedTabs' in
        (mkStore sharedTabs' clusters,
         (if ai then [categorize_tabs sharedTabs'] else [])
         ++ [clusters_updated clusters])
  end.

(** [handleTabsCategorized]: a usable answer is stored and published
    as it is. *)
Definition handleTabsCategorized (data : Response) (st : Store)
  : Store * list Effect :=
  if truthy (resp_error data) then (st, [])
  else match resp_clusters data with
       | None => (st, [])
       | Some clusters =>
           (mkStore (sharedTabs st) clusters, [clusters_updated clusters])
       end.

(** [updateAIClusters] from the point where the offscreen document has
    answered ([None]: no answer object). An answer with clusters goes
    to [handleTabsCategorized]; one with an error is thrown and caught,
    and the fallback grouping of the stored tabs is published. *)
Definition updateAIClusters_response (response : option Response)
    (st : Store) : Store * list Effect :=
  match response with
  | None => (st, [])
  | Some r =>
      match resp_clusters r with
      | Some clusters => handleTabsCategorized (mkResponse None (Some clusters)) st
      | None =>
          if truthy (resp_error r) then
            let simpleClusters := simpleGroupByDomain (sharedTabs st) in
            (mkStore (sharedTabs st) simpleClusters,
             [clusters_updated simpleClusters])
          else (st, [])
      end
  end.

(** Answers handled one after the other, in the order they arrive. *)
Definition arrivals (rs : list Response) (st : Store) : Store :=
  foldl (λ st r, (updateAIClusters_response (Some r) st).1) st rs.
End worker.

(** *** The rest of what the worker does with the server's envelopes *)

(** What the worker keeps in [chrome.storage.local] of what the server
    sends: the store of tabs and clusters, the annotations of the last
    snapshot, and the object [groups] of member counts. *)
Record Local := mkLocal {
  store : Store;
  annotations : list Server.Annotation;
  memberCounts : list (string * option nat)
}.

(** An envelope as [handleWebSocketMessage] tells them apart by [type];
    [relayed_other] is a type it has no case for. A field that may be
    missing is an [option]. *)
Inductive Relayed :=
| relayed_tab_shared (data : TabData)
| relayed_group_update (groupId : string) (memberCount : option nat)
| relayed_ai_cluster_update (data : list Cluster.t)
| relayed_annotation_update (data : option string)
| relayed_group_data (snapshotTabs : option (list TabData))
    (snapshotAnnotations : option (list Server.Annotation))
| relayed_other (type : string).

(** What the handlers below tell the UI. *)
Inductive Notice :=
| effect (e : Effect)
| group_info_updated (groupId : string) (memberCount : option nat).

(** A browser tab as [chrome.tabs] gives it. *)
Record ChromeTab := mkChromeTab {
  chrome_id : option Z;
  chrome_title : option string;
  chrome_url : option string
}.

(** The two globals of the worker that sharing reads. *)
Record Session := mkSession {
  currentGroupId : option string;
  wsConnection : option Server.ReadyState
}.

(** What [shareTab] sends besides writing the store. *)
Inductive Action :=
| to_server (message : Server.Inbound)
| ui_tab_shared (data : TabData).

Section relay.
Variable hostname : string → option string.
(** The clusters in the [data] of an [ai_cluster_update] envelope. *)
Variable decodeClusters : option string → list Cluster.t.

(** [handleGroupData]: the snapshot replaces the stored tabs and
    annotations, an absent field counting as empty, and the clusters
    are computed from it. *)
Definition handleGroupData (snapshotTabs : option (list TabData))
    (snapshotAnnotations : option (list Server.Annotation)) (loc : Local)
  : Local * list Effect :=
  let tabs := default [] snapshotTabs in
  let '(clusters, ai) := computeClusters hostname tabs in
  (mkLocal (mkStore tabs clusters) (default [] snapshotAnnotations)
     (memberCounts loc),
   (if ai then [categorize_tabs tabs] else []) ++ [clusters_updated clusters]).

(** [handleGroupUpdate]: the count is written under the group's
    identifier in the object [groups]. Assigning to the key
    ["__proto__"] sets the prototype of the object and adds no key, so
    nothing is stored for it. *)
Definition handleGroupUpdate (groupId : string) (memberCount : option nat)
    (loc : Local) : Local * list Notice :=
  (mkLocal (store loc) (annotations loc)
     (if decide (groupId = "__proto__") then memberCounts loc
      else jmap_set groupId memberCount (memberCounts loc)),
   [group_info_updated groupId memberCount]).

(** [handleAIClusterUpdate]: the clusters of a peer are stored and
    published as they come. *)
Definition handleAIClusterUpdate (clusterData : list Cluster.t) (loc : Local)
  : Local * list Effect :=
  (mkLocal (mkStore (sharedTabs (store loc)) clusterData) (annotations loc)
     (memberCounts loc),
   [clusters_updated clusterData]).

(** [handleWebSocketMessage]. [handleAnnotationUpdate] only logs. *)
Definition handleWebSocketMessage (message : Relayed) (loc : Local)
  : Local * list Notice :=
  match message with
  | relayed_tab_shared data =>
      let r := handleSharedTab hostname data (store loc) in
      (mkLocal r.1 (annotations loc) (memberCounts loc), effect <$> r.2)
  | relayed_group_update groupId memberCount =>
      handleGroupUpdate groupId memberCount loc
  | relayed_ai_cluster_update data =>
      let r := handleAIClusterUpdate data loc in (r.1, effect <$> r.2)
  | relayed_annotation_update _ => (loc, [])
  | relayed_group_data snapshotTabs snapshotAnnotations =>
      let r := handleGroupData snapshotTabs snapshotAnnotations loc in
      (r.1, effect <$> r.2)
  | relayed_other _ => (loc, [])
  end.

(** An envelope of the server as it arrives at the worker. *)
Definition onWire (m : Server.Outbound) : Relayed :=
  match m with
  | Server.welcome _ => relayed_other "welcome"
  | Server.group_joined _ _ => relayed_other "group_joined"
  | Server.group_data tabs anns => relayed_group_data (Some tabs) (Some anns)
  | Server.member_joined _ _ => relayed_other "member_joined"
  | Server.member_left _ _ => relayed_other "member_left"
  | Server.tab_shared data => relayed_tab_shared data
  | Server.annotation_update data _ => relayed_annotation_update data
  | Server.ai_cluster_update data _ =>
      relayed_ai_cluster_update (decodeClusters data)
  | Server.pong => relayed_other "pong"
  end.

(** [shareTab]: nothing without a current group; otherwise the record
    is stamped with the local clock and the group, appended to the
    stored tabs, sent to the server when the socket is open, and
    shown to the UI. *)
Definition shareTab (tab : ChromeTab) (now : Z) (session : Session)
    (st : Store) : Store * list Action :=
  if truthy (currentGroupId session) then
    let sharedTab :=
      mkTab (chrome_id tab) (chrome_title tab) (chrome_url tab)
        (Some "No summary available") (Some now) (currentGroupId session)
        None in
    (mkStore (sharedTabs st ++ [sharedTab]) (aiClusters st),
     match wsConnection session with
     | Some Server.OPEN => [to_server (Server.share_tab (Some sharedTab))]
     | _ => []
     end ++ [ui_tab_shared sharedTab])
  else (st, []).
End relay.

End Worker.

(** ** The worker's connection to the server *)

Module Relay.

(** The globals [initializeWebSocket] reads and writes; the socket in
    [wsConnection] is known by the number of the attempt that made it. *)
Record Connection := mkConnection {
  wsConnection : option nat;
  connectionAttemptInProgress : bool;
  lastConnectionAttempt : Z;
  attemptsMade : nat
}.

Inductive Step :=
| close_socket (socket : nat)
| open_socket (socket : nat)
| connection_status_changed (connected : bool)
| retry_after (delay : Z).

Definition CONNECTION_COOLDOWN : Z := 5000.

(** [initializeWebSocket] at time [now]. [constructorThrows] says
    whether [new WebSocket] throws; the [finally] clears the flag on
    every path through the [try]. *)
Definition initializeWebSocket (now : Z) (constructorThrows : bool)
    (st : Connection) : Connection * list Step :=
  if connectionAttemptInProgress st then (st, [])
  else if decide (now - lastConnectionAttempt st < CONNECTION_COOLDOWN)%Z
  then (st, [])
  else
    let closing :=
      match wsConnection st with
      | Some old => [close_socket old]
      | None => []
      end in
    if constructorThrows then
      (mkConnection (wsConnection st) false now (attemptsMade st),
       closing ++ [connection_status_changed false; retry_after 5000])
    else
      (mkConnection (Some (attemptsMade st)) false now (S (attemptsMade st)),
       closing ++ [open_socket (attemptsMade st)]).

(** Calls one after the other, each with its time and whether the
    constructor throws: the steps they take, each with its time. *)
Fixpoint calls (cs : list (Z * bool)) (st : Connection)
  : Connection * list (Z * Step) :=
  match cs with
  | [] => (st, [])
  | (now, throws) :: rest =>
      let r := initializeWebSocket now throws st in
      let r' := calls rest r.1 in
      (r'.1, ((λ step, (now, step)) <$> r.2) ++ r'.2)
  end.

(** The times at which a socket was opened. *)
Definition openings (steps : list (Z * Step)) : list Z :=
  omap (λ e : Z * Step,
    match e.2 with open_socket _ => Some e.1 | _ => None end) steps.

(** Each time is at least [gap] after the one before it. *)
Fixpoint spaced (gap : Z) (times : list Z) : Prop :=
  match times with
  | [] => True
  | t :: rest =>
      match rest with
      | [] => True
      | t' :: _ => (t + gap ≤ t')%Z
      end ∧ spaced gap rest
  end.

End Relay.

(** ** The offscreen document: from the parsed answer to clusters *)

Module Offscreen.

(** One element of [parsed.clusters]; any field may be missing. *)
Record RawCluster := mkRaw {
  raw_name : option string;
  raw_tabs : option (list Z);
  raw_theme : option string
}.

(** A value, or the message of the error thrown instead. *)
Inductive Thrown (A : Type) :=
| ok (a : A)
| thrown (message : string).
Arguments ok {A} a.
Arguments thrown {A} message.

(** [tabs[index]]: [undefined] outside the array. *)
Definition at_index (tabs : list TabData) (index : Z) : option TabData :=
  if (0 <=? index)%Z then tabs !! Z.to_nat index else None.

(** An index that names a tab. *)
Definition inRange (tabs : list TabData) (index : Z) : Prop :=
  (0 ≤ index < Z.of_nat (length tabs))%Z.

#[export] Instance inRange_dec tabs index : Decision (inRange tabs index).
Proof. unfold inRange. apply _. Defined.

(** The indices a cluster of the answer lists. *)
Definition indicesOf (cluster : RawCluster) : list Z :=
  default [] (raw_tabs cluster).

Section categorize.
(** [String.prototype.toLowerCase]. *)
Variable toLowerCase : string → string.

(** The callback of [parsed.clusters.map]. It throws a [TypeError] on
    a cluster without [tabs], and on one with neither a theme nor a
    name. *)
Definition convert (tabs : list TabData) (cluster : RawCluster)
  : Thrown Cluster.t :=
  match raw_tabs cluster with
  | None => thrown "Cannot read properties of undefined (reading 'map')"
  | Some indices =>
      let resolved := omap (at_index tabs) indices in
      if truthy (raw_theme cluster) then
        ok (Cluster.mk (raw_name cluster) resolved
              (default "" (raw_theme cluster)))
      else
        match raw_name cluster with
        | Some n =>
            ok (Cluster.mk (raw_name cluster) resolved
                  ("Collection of " +:+ toLowerCase n +:+ " content"))
        | None =>
            thrown "Cannot read properties of undefined (reading 'toLowerCase')"
        end
  end.

(** [array.map(convert)]: the first throw ends it. *)
Fixpoint convertAll (tabs : list TabData) (raw : list RawCluster)
  : Thrown (list Cluster.t) :=
  match raw with
  | [] => ok []
  | cluster :: rest =>
      match convert tabs cluster with
      | thrown message => thrown message
      | ok c =>
          match convertAll tabs rest with
          | thrown message => thrown message
          | ok cs => ok (c :: cs)
          end
      end
  end.

(** [categorizeTabs] from the result of [JSON.parse] on;
    [parsed_clusters] is [parsed.clusters] when it is an array. *)
Definition categorizeTabs (tabs : list TabData)
    (parsed_clusters : option (list RawCluster)) : Thrown (list Cluster.t) :=
  match parsed_clusters with
  | None => thrown "Invalid response structure"
  | Some raw =>
      match convertAll tabs raw with
      | thrown message => thrown message
      | ok clusters =>
          ok (filter (λ c, 0 < length (Cluster.tabs c)) clusters)
      end
  end.

(** The [categorize-tabs] case of the message listener. *)
Definition respond (tabs : list TabData)
    (parsed_clusters : option (list RawCluster)) : Response :=
  match categorizeTabs tabs parsed_clusters with
  | ok clusters => mkResponse None (Some clusters)
  | thrown message => mkResponse (Some message) None
  end.
End categorize.

(** A cluster of the answer that [convert] takes: it has a [tabs]
    array, and a theme that is not empty or else a name to make one
    from. *)
Definition convertible (cluster : RawCluster) : Prop :=
  is_Some (raw_tabs cluster)
  ∧ (truthy (raw_theme cluster) = true ∨ is_Some (raw_name cluster)).

(** A cluster of the answer that lists an index that names a tab. *)
Definition listsATab (tabs : list TabData) (cluster : RawCluster) : Prop :=
  Exists (inRange tabs) (indicesOf cluster).

#[export] Instance listsATab_dec tabs cluster : Decision (listsATab tabs cluster).
Proof. unfold listsATab. apply _. Defined.

(** What is published for one cluster of the answer, in the words of
    the amended C1: the cluster under the name the answer gave it, with
    each index it lists resolved to the tab at that index, in the order
    listed, an index out of range dropped. Its theme is the answer's
    when that is not empty, and is made from the name otherwise. *)
Definition resolves (toLowerCase : string → string) (tabs : list TabData)
    (cluster : RawCluster) (published : Cluster.t) : Prop :=
  Cluster.name published = raw_name cluster
  ∧ Cluster.tabs published
    = omap (λ index : Z, tabs !! Z.to_nat index)
        (filter (inRange tabs) (indicesOf cluster))
  ∧ (truthy (raw_theme cluster) = true →
     raw_theme cluster = Some (Cluster.theme published))
  ∧ (truthy (raw_theme cluster) = false →
     ∃ n, raw_name cluster = Some n
          ∧ Cluster.theme published
            = "Collection of " +:+ toLowerCase n +:+ " content").

End Offscreen.

(** ** From a classifier's answer to the published clusters *)

Section publication.
Variable hostname : string → option string.
Variable toLowerCase : string → string.

(** The store after the answer for [tabs] went through
    [categorizeTabs] and, back in the service worker, through
    [updateAIClusters]. *)
Definition publish (tabs : list TabData)
    (parsed_clusters : option (list Offscreen.RawCluster))
    (st : Worker.Store) : Worker.Store :=
  (Worker.updateAIClusters_response hostname
     (Some (Offscreen.respond toLowerCase tabs parsed_clusters)) st).1.
End publication.

(** *** Sample data of the extension side *)

Definition tabAt (u g : string) (t : Z) : TabData :=
  mkTab None None (Some u) None (Some t) (Some g) None.

(** A parser that knows three addresses. *)
Definition sampleHostname (u : string) : option string :=
  if decide (u = "http://constructor/") then Some "constructor"
  else if decide (u = "https://docs.example.org/a") then Some "docs.example.org"
  else if decide (u = "https://news.example.com/b") then Some "news.example.com"
  else None.

(** [toLowerCase] on strings of ASCII characters. *)
Fixpoint asciiLowerCase (s : string) : string :=
  match s with
  | EmptyString => EmptyString
  | String a rest =>
      String
        (let n := N_of_ascii a in
         if ((65 <=? n) && (n <=? 90))%N then ascii_of_N (n + 32) else a)
        (asciiLowerCase rest)
  end.

Definition tabA : TabData := tabAt "https://docs.example.org/a" "g1" 1000.
Definition tabB : TabData := tabAt "https://news.example.com/b" "g1" 5000.

(** * Properties *)

(** ** Containers *)

Lemma filter_all {A} (P : A → Prop) `{∀ x, Decision (P x)} (l : list A) :
  Forall P l → filter P l = l.
Proof.
  induction 1 as [| x l Hx Hl IH]; [done |].
  by rewrite filter_cons_True, IH.
Qed.

Section ordered_facts.
Context {K : Type} `{EqDecision K}.

Lemma jset_add_elem (x y : K) (s : list K) :
  y ∈ jset_add x s ↔ y = x ∨ y ∈ s.
Proof.
  unfold jset_add. case_decide as Hx.
  - split; [by right | intros [-> | ?]; done].
  - rewrite elem_of_app, list_elem_of_singleton. tauto.
Qed.

Lemma jset_add_id (x : K) (s : list K) : x ∈ s → jset_add x s = s.
Proof. intros Hx. unfold jset_add. by rewrite decide_True. Qed.

Lemma jset_delete_elem (x y : K) (s : list K) :
  y ∈ jset_delete x s ↔ y ∈ s ∧ y ≠ x.
Proof. unfold jset_delete. rewrite list_elem_of_filter. tauto. Qed.

Lemma jset_add_NoDup (x : K) (s : list K) : NoDup s → NoDup (jset_add x s).
Proof.
  intros Hs. unfold jset_add. case_decide as Hx; [done |].
  apply NoDup_app. split_and!; [done | | apply NoDup_singleton].
  intros y Hy ->%list_elem_of_singleton. done.
Qed.

Lemma jset_delete_NoDup (x : K) (s : list K) : NoDup s → NoDup (jset_delete x s).
Proof. apply NoDup_filter. Qed.

Context {V : Type}.
Implicit Types m : list (K * V).

Lemma jmap_get_set_eq k v m : jmap_get k (jmap_set k v m) = Some v.
Proof.
  induction m as [| [k' v'] m IH]; simpl.
  - by rewrite decide_True.
  - case_decide; simpl; [by rewrite decide_True | by rewrite decide_False].
Qed.

Lemma jmap_get_set_ne k k' v m :
  k ≠ k' → jmap_get k' (jmap_set k v m) = jmap_get k' m.
Proof.
  intros Hne. induction m as [| [k1 v1] m IH]; simpl.
  - by rewrite decide_False.
  - case_decide as Hk; simpl.
    + subst k1. by rewrite !decide_False.
    + by rewrite IH.
Qed.

Lemma jmap_get_set k k' v m :
  jmap_get k' (jmap_set k v m) = if decide (k = k') then Some v else jmap_get k' m.
Proof.
  case_decide as Hk; [subst; apply jmap_get_set_eq | by apply jmap_get_set_ne].
Qed.

Lemma jmap_set_id k v m : jmap_get k m = Some v → jmap_set k v m = m.
Proof.
  induction m as [| [k' v'] m IH]; simpl; [done |].
  case_decide as Hk.
  - intros [= ->]. by subst.
  - intros Hm. by rewrite IH.
Qed.

Lemma jmap_get_delete_eq k m : jmap_get k (jmap_delete k m) = None.
Proof.
  unfold jmap_delete. induction m as [| [k' v'] m IH]; [done |].
  rewrite filter_cons. simpl. case_decide as Hk; simpl; [| done].
  by rewrite decide_False.
Qed.

Lemma jmap_get_delete_ne k k' m :
  k ≠ k' → jmap_get k' (jmap_delete k m) = jmap_get k' m.
Proof.
  intros Hne. unfold jmap_delete. induction m as [| [k1 v1] m IH]; [done |].
  rewrite filter_cons. simpl. case_decide as Hk; simpl.
  - by rewrite IH.
  - rewrite decide_False; [done | congruence].
Qed.

Lemma jmap_get_delete k k' m :
  jmap_get k' (jmap_delete k m) = if decide (k = k') then None else jmap_get k' m.
Proof.
  case_decide as Hk; [subst; apply jmap_get_delete_eq | by apply jmap_get_delete_ne].
Qed.

Lemma jmap_get_Some_keys k v m : jmap_get k m = Some v → k ∈ jmap_keys m.
Proof.
  unfold jmap_keys. induction m as [| [k' v'] m IH]; simpl; [done |].
  case_decide as Hk; [subst; intros _; left | intros Hm; right; auto].
Qed.

Lemma jmap_get_None_keys k m : jmap_get k m = None ↔ k ∉ jmap_keys m.
Proof.
  unfold jmap_keys. induction m as [| [k' v'] m IH]; simpl.
  - split; [intros _; apply not_elem_of_nil | done].
  - rewrite not_elem_of_cons. case_decide as Hk; [subst; split; [done | tauto] |].
    rewrite IH. tauto.
Qed.

Lemma jmap_get_elem k v m : jmap_get k m = Some v → (k, v) ∈ m.
Proof.
  induction m as [| [k' v'] m IH]; simpl; [done |].
  case_decide as Hk; [intros [= ->]; subst; left | intros Hm; right; auto].
Qed.

Lemma jmap_elem_get k v m : NoDup (jmap_keys m) → (k, v) ∈ m → jmap_get k m = Some v.
Proof.
  unfold jmap_keys. induction m as [| [k' v'] m IH]; simpl.
  - intros _ Hin. by apply elem_of_nil in Hin.
  - intros [Hk' Hnd]%NoDup_cons [Heq | Hin]%elem_of_cons.
    + injection Heq as -> ->. by rewrite decide_True.
    + rewrite decide_False; [auto |].
      intros ->. apply Hk'. apply list_elem_of_fmap. by exists (k', v).
Qed.

Lemma jmap_keys_set k v m :
  jmap_keys (jmap_set k v m)
  = if decide (k ∈ jmap_keys m) then jmap_keys m else jmap_keys m ++ [k].
Proof.
  unfold jmap_keys. induction m as [| [k' v'] m IH].
  - destruct (decide (k ∈ ([] : list (K * V)).*1)) as [Hin | _]; [| done].
    by apply elem_of_nil in Hin.
  - cbn [jmap_set]. destruct (decide (k = k')) as [<- | Hk].
    + rewrite decide_True; [done | rewrite fmap_cons; left].
    + rewrite !fmap_cons, IH. cbn [fst].
      destruct (decide (k ∈ m.*1)) as [Hin | Hin].
      * rewrite decide_True; [done | by right].
      * rewrite decide_False; [done |]. rewrite not_elem_of_cons. done.
Qed.

Lemma jmap_set_NoDup k v m : NoDup (jmap_keys m) → NoDup (jmap_keys (jmap_set k v m)).
Proof.
  intros Hnd. rewrite jmap_keys_set. case_decide as Hin; [done |].
  apply NoDup_app. split_and!; [done | | apply NoDup_singleton].
  intros y Hy ->%list_elem_of_singleton. done.
Qed.

Lemma jmap_filter_NoDup (P : K * V → Prop) `{∀ e, Decision (P e)} m :
  NoDup (jmap_keys m) → NoDup (jmap_keys (filter P m)).
Proof.
  unfold jmap_keys. intros Hnd.
  refine (sublist_NoDup _ _ Hnd _). apply fmap_sublist, sublist_filter.
Qed.

Lemma jmap_get_filter (P : K * V → Prop) `{∀ e, Decision (P e)} k m :
  NoDup (jmap_keys m) →
  jmap_get k (filter P m)
  = match jmap_get k m with
    | Some v => if decide (P (k, v)) then Some v else None
    | None => None
    end.
Proof.
  unfold jmap_keys. induction m as [| [k' v'] m IH]; simpl; [done |].
  intros [Hk' Hnd]%NoDup_cons. rewrite filter_cons.
  destruct (decide (k = k')) as [-> | Hk].
  - case_decide as HP; simpl; [by rewrite decide_True |].
    rewrite IH by done.
    destruct (jmap_get k' m) as [v |] eqn:Hget; [| done].
    exfalso. apply Hk'. by apply jmap_get_Some_keys in Hget.
  - case_decide as HP; simpl; [rewrite decide_False by done |]; by apply IH.
Qed.
End ordered_facts.

(** ** The relay server *)

Module ServerProps.
Import Server.

(** *** Running handlers *)

Lemma ret_andThen s k : ret s >>> k = k s.
Proof. unfold andThen. simpl. by destruct (k s). Qed.

Lemma andThen_assoc r k1 k2 : r >>> k1 >>> k2 = r >>> (λ s, k1 s >>> k2).
Proof.
  destruct r as [s out []]; unfold andThen; simpl; [| done].
  destruct (k1 s) as [s1 out1 []]; simpl; [| done].
  by rewrite app_assoc.
Qed.

Lemma andThen_ext r k1 k2 : (∀ s, k1 s = k2 s) → r >>> k1 = r >>> k2.
Proof. intros Hk. unfold andThen. destruct (completion r); by rewrite ?Hk. Qed.

Lemma foldl_andThen {A} (f : A → Server → Result) l r :
  foldl (λ r x, r >>> f x) r l = r >>> forEach f l.
Proof.
  unfold forEach. revert r. induction l as [| x l IH]; intros r; simpl.
  - destruct r as [s out []]; unfold andThen; simpl; [| done].
    by rewrite app_nil_r.
  - rewrite IH, andThen_assoc. apply andThen_ext. intros s.
    by rewrite (IH (ret s >>> f x)), ret_andThen.
Qed.

Lemma forEach_nil {A} (f : A → Server → Result) s : forEach f [] s = ret s.
Proof. done. Qed.

Lemma forEach_cons {A} (f : A → Server → Result) x l s :
  forEach f (x :: l) s = f x s >>> forEach f l.
Proof. unfold forEach at 1. simpl. by rewrite foldl_andThen, ret_andThen. Qed.

Lemma andThen_returned r k :
  completion r = Returned → state (r >>> k) = state (k (state r)).
Proof. intros Hr. unfold andThen. by rewrite Hr. Qed.

Lemma andThen_completion r k :
  completion r = Returned → completion (r >>> k) = completion (k (state r)).
Proof. intros Hr. unfold andThen. by rewrite Hr. Qed.

Lemma andThen_preserves P r k :
  P (state r) → preserves P k → P (state (r >>> k)).
Proof.
  intros Hr Hk. unfold andThen. destruct (completion r); [| done].
  simpl. by apply Hk.
Qed.

Lemma forEach_preserves {A} P (f : A → Server → Result) l :
  (∀ x, x ∈ l → preserves P (f x)) → preserves P (forEach f l).
Proof.
  induction l as [| x l IH]; intros Hf s Hs; [done |].
  rewrite forEach_cons. apply andThen_preserves.
  - apply Hf; [left | done].
  - apply IH. intros y Hy. apply Hf. by right.
Qed.

(** A loop none of whose rounds throws is a fold over the registries. *)
Lemma forEach_returned {A} (f : A → Server → Result) l s :
  (∀ x s, completion (f x s) = Returned) →
  state (forEach f l s) = foldl (λ s x, state (f x s)) s l
  ∧ completion (forEach f l s) = Returned.
Proof.
  intros Hf. revert s. induction l as [| x l IH]; intros s; [done |].
  rewrite forEach_cons. simpl.
  rewrite andThen_returned, andThen_completion by apply Hf.
  apply IH.
Qed.

Lemma broadcastToGroup_state g m e s : state (broadcastToGroup g m e s) = s.
Proof. unfold broadcastToGroup. by destruct (jmap_get g (groups s)). Qed.

Lemma broadcastToGroup_completion g m e s :
  completion (broadcastToGroup g m e s) = Returned.
Proof. unfold broadcastToGroup. by destruct (jmap_get g (groups s)). Qed.

(** *** What each handler leaves in the registries *)

Lemma handleJoinGroup_state c g now s client :
  jmap_get c (clients s) = Some client →
  state (handleJoinGroup c g now s)
  = mkServer
      (jmap_set g
         (joinedGroup c (default (Group.mk g [] [] [] now) (jmap_get g (groups s))))
         (groups s))
      (jmap_set c
         (Client.mk (Client.ws client) (jset_add g (Client.groups client))
            (Client.lastSeen client))
         (clients s)).
Proof.
  intros Hc. unfold handleJoinGroup. rewrite Hc.
  rewrite andThen_returned by done. by rewrite broadcastToGroup_state.
Qed.

Lemma handleJoinGroup_completion c g now s :
  completion (handleJoinGroup c g now s) = Returned.
Proof.
  unfold handleJoinGroup. destruct (jmap_get c (clients s)); [| done].
  rewrite andThen_completion by done. apply broadcastToGroup_completion.
Qed.

Lemma handleLeaveGroup_state c g s client group :
  jmap_get c (clients s) = Some client →
  jmap_get g (groups s) = Some group →
  state (handleLeaveGroup c g s)
  = mkServer
      (if decide (length (jset_delete c (Group.members group)) = 0)
       then jmap_delete g (jmap_set g (leftGroup c group) (groups s))
       else jmap_set g (leftGroup c group) (groups s))
      (jmap_set c
         (Client.mk (Client.ws client) (jset_delete g (Client.groups client))
            (Client.lastSeen client))
         (clients s)).
Proof.
  intros Hc Hg. unfold handleLeaveGroup. rewrite Hc, Hg.
  rewrite andThen_returned by apply broadcastToGroup_completion.
  rewrite broadcastToGroup_state. simpl. by case_decide.
Qed.

Lemma handleLeaveGroup_unknown c g s :
  jmap_get c (clients s) = None ∨ jmap_get g (groups s) = None →
  handleLeaveGroup c g s = ret s.
Proof.
  unfold handleLeaveGroup. intros [-> | Hg]; [done |].
  rewrite Hg. by destruct (jmap_get c (clients s)).
Qed.

Lemma handleLeaveGroup_completion c g s :
  completion (handleLeaveGroup c g s) = Returned.
Proof.
  unfold handleLeaveGroup.
  destruct (jmap_get c (clients s)); [| done].
  destruct (jmap_get g (groups s)); [| done].
  rewrite andThen_completion by apply broadcastToGroup_completion.
  by case_decide.
Qed.

Lemma handleClientDisconnect_state c s client :
  jmap_get c (clients s) = Some client →
  state (handleClientDisconnect c s)
  = let s1 := foldl (λ s g, state (handleLeaveGroup c g s)) s (Client.groups client) in
    mkServer (groups s1) (jmap_delete c (clients s1)).
Proof.
  intros Hc. unfold handleClientDisconnect. rewrite Hc.
  destruct (forEach_returned (handleLeaveGroup c) (Client.groups client) s)
    as [Hst Hco]; [apply handleLeaveGroup_completion |].
  rewrite andThen_returned by done. by rewrite Hst.
Qed.

Lemma handleClientDisconnect_completion c s :
  completion (handleClientDisconnect c s) = Returned.
Proof.
  unfold handleClientDisconnect. destruct (jmap_get c (clients s)); [| done].
  destruct (forEach_returned (handleLeaveGroup c) (Client.groups t) s)
    as [_ Hco]; [apply handleLeaveGroup_completion |].
  by rewrite andThen_completion.
Qed.

(** *** Membership after each operation *)

Lemma member_join c g now s client c' g' :
  jmap_get c (clients s) = Some client →
  member c' g' (state (handleJoinGroup c g now s))
  ↔ member c' g' s ∨ (c' = c ∧ g' = g).
Proof.
  intros Hc. rewrite (handleJoinGroup_state _ _ _ _ _ Hc).
  unfold member. simpl. rewrite jmap_get_set.
  destruct (decide (g = g')) as [<- | Hg].
  - split.
    + intros (group & [= <-] & Hin). simpl in Hin.
      apply jset_add_elem in Hin as [-> | Hin]; [by right |].
      left. destruct (jmap_get g (groups s)) as [gr |] eqn:Hgr; simpl in Hin.
      * by exists gr.
      * by apply elem_of_nil in Hin.
    + intros [(group & Hgr & Hin) | [-> _]]; eexists; (split; [done |]);
        simpl; apply jset_add_elem; [| by left].
      right. by rewrite Hgr.
  - split; [intros H; by left | intros [H | [_ ->]]; done].
Qed.

Lemma joined_join c g now s client c' g' :
  jmap_get c (clients s) = Some client →
  joined c' g' (state (handleJoinGroup c g now s))
  ↔ joined c' g' s ∨ (c' = c ∧ g' = g).
Proof.
  intros Hc. rewrite (handleJoinGroup_state _ _ _ _ _ Hc).
  unfold joined. simpl. rewrite jmap_get_set.
  destruct (decide (c = c')) as [<- | Hne].
  - split.
    + intros (cl & [= <-] & Hin). simpl in Hin.
      apply jset_add_elem in Hin as [-> | Hin]; [by right |].
      left. by exists client.
    + intros [(cl & Hcl & Hin) | [_ ->]]; eexists; (split; [done |]);
        simpl; apply jset_add_elem; [| by left].
      right. congruence.
  - split; [intros H; by left | intros [H | [-> _]]; done].
Qed.

Lemma handleLeaveGroup_cases c g s :
  (known c g s ∧ ∃ client group,
      jmap_get c (clients s) = Some client ∧ jmap_get g (groups s) = Some group)
  ∨ (¬ known c g s ∧ handleLeaveGroup c g s = ret s).
Proof.
  unfold known.
  destruct (jmap_get c (clients s)) as [client |] eqn:Hc;
    destruct (jmap_get g (groups s)) as [group |] eqn:Hg.
  - left. split; [split; eauto | eauto].
  - right. split; [intros [_ []]; done |].
    apply handleLeaveGroup_unknown. by right.
  - right. split; [intros [[] _]; done |].
    apply handleLeaveGroup_unknown. by left.
  - right. split; [intros [[] _]; done |].
    apply handleLeaveGroup_unknown. by left.
Qed.

Lemma member_leave c g s c' g' :
  member c' g' (state (handleLeaveGroup c g s))
  ↔ member c' g' s ∧ ¬ (known c g s ∧ c' = c ∧ g' = g).
Proof.
  destruct (handleLeaveGroup_cases c g s)
    as [[Hk (client & group & Hc & Hg)] | [Hk ->]]; [| simpl; tauto].
  rewrite (handleLeaveGroup_state _ _ _ _ _ Hc Hg).
  unfold member. simpl.
  destruct (decide (g = g')) as [<- | Hne].
  - assert (∀ gr, (if decide (length (jset_delete c (Group.members group)) = 0)
             then jmap_get g (jmap_delete g (jmap_set g (leftGroup c group) (groups s)))
             else jmap_get g (jmap_set g (leftGroup c group) (groups s))) = Some gr
            → c' ∈ Group.members gr
            → c' ∈ Group.members group ∧ c' ≠ c) as Hfwd.
    { intros gr Hgr Hin. case_decide.
      - by rewrite jmap_get_delete_eq in Hgr.
      - rewrite jmap_get_set_eq in Hgr. injection Hgr as <-.
        by apply jset_delete_elem in Hin. }
    split.
    + intros (gr & Hgr & Hin).
      destruct (Hfwd gr) as [Hin' Hc']; [by case_decide | done |].
      split; [by exists group | tauto].
    + intros [(gr & Hgr & Hin) Hnot].
      assert (gr = group) as -> by congruence.
      assert (c' ∈ jset_delete c (Group.members group)) as Hin'.
      { apply jset_delete_elem. split; [done |]. intros ->. tauto. }
      exists (leftGroup c group). split; [| done].
      case_decide as Hlen; [| apply jmap_get_set_eq].
      apply nil_length_inv in Hlen. rewrite Hlen in Hin'.
      by apply elem_of_nil in Hin'.
  - assert (jmap_get g'
              (if decide (length (jset_delete c (Group.members group)) = 0)
               then jmap_delete g (jmap_set g (leftGroup c group) (groups s))
               else jmap_set g (leftGroup c group) (groups s))
            = jmap_get g' (groups s)) as ->.
    { case_decide; rewrite ?jmap_get_delete_ne, jmap_get_set_ne; done. }
    split; [intros H; split; [done | intros (_ & _ & ->); done] | tauto].
Qed.

Lemma joined_leave c g s c' g' :
  joined c' g' (state (handleLeaveGroup c g s))
  ↔ joined c' g' s ∧ ¬ (known c g s ∧ c' = c ∧ g' = g).
Proof.
  destruct (handleLeaveGroup_cases c g s)
    as [[Hk (client & group & Hc & Hg)] | [Hk ->]]; [| simpl; tauto].
  rewrite (handleLeaveGroup_state _ _ _ _ _ Hc Hg).
  unfold joined. simpl. rewrite jmap_get_set.
  destruct (decide (c = c')) as [<- | Hne].
  - split.
    + intros (cl & [= <-] & Hin). simpl in Hin.
      apply jset_delete_elem in Hin as [Hin Hg'].
      split; [by exists client | tauto].
    + intros [(cl & Hcl & Hin) Hnot].
      assert (cl = client) as -> by congruence.
      eexists. split; [done |]. simpl. apply jset_delete_elem.
      split; [done |]. intros ->. tauto.
  - split; [intros H; split; [done | intros (_ & -> & _); done] | tauto].
Qed.

Lemma leave_keeps_client c g s c' :
  is_Some (jmap_get c' (clients s)) →
  is_Some (jmap_get c' (clients (state (handleLeaveGroup c g s)))).
Proof.
  intros Hc'.
  destruct (handleLeaveGroup_cases c g s)
    as [[Hk (client & group & Hc & Hg)] | [Hk ->]]; [| done].
  rewrite (handleLeaveGroup_state _ _ _ _ _ Hc Hg). simpl.
  rewrite jmap_get_set. by case_decide.
Qed.

Lemma member_leave_all c l s c' g' :
  is_Some (jmap_get c (clients s)) →
  member c' g' (foldl (λ s g, state (handleLeaveGroup c g s)) s l)
  ↔ member c' g' s ∧ ¬ (c' = c ∧ g' ∈ l).
Proof.
  revert s. induction l as [| g l IH]; intros s Hc; simpl.
  - split; [intros H; split; [done | intros [_ []%elem_of_nil] ] | tauto].
  - rewrite IH by by apply leave_keeps_client.
    rewrite member_leave, elem_of_cons. unfold known. split.
    + intros [[Hm Hn] Hl]. split; [done |]. intros [-> [-> | Hin]]; [| tauto].
      apply Hn. destruct Hm as (gr & Hgr & _). rewrite Hgr. eauto.
    + intros [Hm Hn]. split; [split; [done |] |]; tauto.
Qed.

Lemma joined_leave_all c l s c' g' :
  c' ≠ c →
  joined c' g' (foldl (λ s g, state (handleLeaveGroup c g s)) s l)
  ↔ joined c' g' s.
Proof.
  intros Hne. revert s. induction l as [| g l IH]; intros s; simpl; [done |].
  rewrite IH, joined_leave. tauto.
Qed.

Lemma member_disconnect c s client c' g' :
  jmap_get c (clients s) = Some client →
  member c' g' (state (handleClientDisconnect c s))
  ↔ member c' g' s ∧ ¬ (c' = c ∧ g' ∈ Client.groups client).
Proof.
  intros Hc. rewrite (handleClientDisconnect_state _ _ _ Hc).
  apply (member_leave_all c (Client.groups client) s c' g'). eauto.
Qed.

Lemma joined_disconnect c s client c' g' :
  jmap_get c (clients s) = Some client →
  joined c' g' (state (handleClientDisconnect c s))
  ↔ joined c' g' s ∧ c' ≠ c.
Proof.
  intros Hc. rewrite (handleClientDisconnect_state _ _ _ Hc).
  unfold joined at 1. simpl. rewrite jmap_get_delete.
  destruct (decide (c = c')) as [<- | Hne].
  - split; [intros (? & [=] & _) | tauto].
  - fold (joined c' g' (foldl (λ s g, state (handleLeaveGroup c g s)) s
                          (Client.groups client))).
    rewrite joined_leave_all by done. split; [intros H; split; done | tauto].
Qed.

Lemma handleClientDisconnect_unknown c s :
  jmap_get c (clients s) = None → handleClientDisconnect c s = ret s.
Proof. intros Hc. unfold handleClientDisconnect. by rewrite Hc. Qed.

(** *** Symmetry of the two registries *)

Lemma join_symmetric c g now : preserves symmetric (λ s, handleJoinGroup c g now s).
Proof.
  intros s Hs c' g'.
  destruct (jmap_get c (clients s)) as [client |] eqn:Hc.
  - rewrite (member_join _ _ _ _ _ _ _ Hc), (joined_join _ _ _ _ _ _ _ Hc).
    by rewrite (Hs c' g').
  - unfold handleJoinGroup. rewrite Hc. apply Hs.
Qed.

Lemma leave_symmetric c g : preserves symmetric (handleLeaveGroup c g).
Proof.
  intros s Hs c' g'. rewrite member_leave, joined_leave. by rewrite (Hs c' g').
Qed.

Lemma disconnect_symmetric c : preserves symmetric (handleClientDisconnect c).
Proof.
  intros s Hs c' g'.
  destruct (jmap_get c (clients s)) as [client |] eqn:Hc.
  - rewrite (member_disconnect _ _ _ _ _ Hc), (joined_disconnect _ _ _ _ _ Hc).
    rewrite (Hs c' g'). split; [| tauto].
    intros [Hj Hn]. split; [done |]. intros ->. apply Hn. split; [done |].
    destruct Hj as (cl & Hcl & Hin). congruence.
  - rewrite handleClientDisconnect_unknown by done. apply Hs.
Qed.

(** *** Handlers that leave the membership alone *)

Lemma member_members c g s :
  member c g s
  ↔ ∃ ms, Group.members <$> jmap_get g (groups s) = Some ms ∧ c ∈ ms.
Proof.
  unfold member. destruct (jmap_get g (groups s)) as [gr |]; simpl.
  - split; [intros (? & [= <-] & ?) | intros (? & [= <-] & ?)]; eauto.
  - split; [intros (? & [=] & _) | intros (? & [=] & _)].
Qed.

Lemma joined_groups c g s :
  joined c g s
  ↔ ∃ gs, Client.groups <$> jmap_get c (clients s) = Some gs ∧ g ∈ gs.
Proof.
  unfold joined. destruct (jmap_get c (clients s)) as [cl |]; simpl.
  - split; [intros (? & [= <-] & ?) | intros (? & [= <-] & ?)]; eauto.
  - split; [intros (? & [=] & _) | intros (? & [=] & _)].
Qed.

Lemma sameRegistry_refl s : sameRegistry s s.
Proof. by split. Qed.

Lemma sameRegistry_trans s1 s2 s3 :
  sameRegistry s1 s2 → sameRegistry s2 s3 → sameRegistry s1 s3.
Proof.
  intros [Hg1 Hc1] [Hg2 Hc2]. split; intros x; [rewrite Hg2 | rewrite Hc2]; auto.
Qed.

Lemma sameRegistry_symmetric s s' : sameRegistry s s' → symmetric s → symmetric s'.
Proof.
  intros [Hg Hc] Hs c g. specialize (Hs c g).
  rewrite member_members, joined_groups in *. by rewrite Hg, Hc.
Qed.

Lemma sameRegistry_touch c client t s :
  jmap_get c (clients s) = Some client →
  sameRegistry s
    (mkServer (groups s)
       (jmap_set c (Client.mk (Client.ws client) (Client.groups client) t)
          (clients s))).
Proof.
  intros Hc. split; intros x; simpl; [done |].
  rewrite jmap_get_set. case_decide; [subst; by rewrite Hc | done].
Qed.

Lemma sameRegistry_heartbeat c now s :
  sameRegistry s (state (handleHeartbeat c now s)).
Proof.
  unfold handleHeartbeat.
  destruct (jmap_get c (clients s)) as [client |] eqn:Hc;
    [| apply sameRegistry_refl].
  case_decide; [by apply sameRegistry_touch | apply sameRegistry_refl].
Qed.

Lemma shareInto_state c d now g s group :
  jmap_get g (groups s) = Some group →
  state (shareInto c d now g s)
  = mkServer
      (jmap_set g
         (Group.mk (Group.id group) (Group.members group)
            (pushShared (completeTabData d c now) (Group.sharedTabs group))
            (Group.annotations group) (Group.created group))
         (groups s))
      (clients s).
Proof.
  intros Hg. unfold shareInto. rewrite Hg.
  rewrite andThen_returned.
  - rewrite andThen_returned by apply broadcastToGroup_completion.
    rewrite !broadcastToGroup_state. by destruct d.
  - rewrite andThen_completion by apply broadcastToGroup_completion.
    apply broadcastToGroup_completion.
Qed.

Lemma shareInto_unknown c d now g s :
  jmap_get g (groups s) = None → shareInto c d now g s = ret s.
Proof. intros Hg. unfold shareInto. by rewrite Hg. Qed.

Lemma shareInto_completion c d now g s :
  completion (shareInto c d now g s)
  = match jmap_get g (groups s), d with
    | Some _, None => Threw
    | _, _ => Returned
    end.
Proof.
  unfold shareInto. destruct (jmap_get g (groups s)); [| done].
  rewrite andThen_completion.
  - by destruct d.
  - rewrite andThen_completion by apply broadcastToGroup_completion.
    apply broadcastToGroup_completion.
Qed.

Lemma sameRegistry_set_group g group group' s :
  jmap_get g (groups s) = Some group →
  Group.members group' = Group.members group →
  sameRegistry s (mkServer (jmap_set g group' (groups s)) (clients s)).
Proof.
  intros Hg Hm. split; intros x; simpl; [| done].
  rewrite jmap_get_set. case_decide; [subst; rewrite Hg; simpl; by f_equal | done].
Qed.

Lemma sameRegistry_shareInto c d now g s :
  sameRegistry s (state (shareInto c d now g s)).
Proof.
  destruct (jmap_get g (groups s)) as [group |] eqn:Hg.
  - rewrite (shareInto_state _ _ _ _ _ _ Hg).
    by apply (sameRegistry_set_group _ group).
  - rewrite shareInto_unknown by done. apply sameRegistry_refl.
Qed.

Lemma sameRegistry_forEach {A} (f : A → Server → Result) l s :
  (∀ x s, sameRegistry s (state (f x s))) →
  sameRegistry s (state (forEach f l s)).
Proof.
  intros Hf.
  apply (forEach_preserves (sameRegistry s) f l); [| apply sameRegistry_refl].
  intros x _ s' Hs'. eapply sameRegistry_trans; [exact Hs' | apply Hf].
Qed.

Lemma sameRegistry_share c d now s :
  sameRegistry s (state (handleShareTab c d now s)).
Proof.
  unfold handleShareTab. destruct (jmap_get c (clients s));
    [| apply sameRegistry_refl].
  apply sameRegistry_forEach. intros. apply sameRegistry_shareInto.
Qed.

Lemma sameRegistry_annotation c d now s :
  sameRegistry s (state (handleAnnotation c d now s)).
Proof.
  unfold handleAnnotation. destruct (jmap_get c (clients s));
    [| apply sameRegistry_refl].
  apply sameRegistry_forEach. intros g s'.
  destruct (jmap_get g (groups s')) as [group |] eqn:Hg;
    [| apply sameRegistry_refl].
  rewrite broadcastToGroup_state. by apply (sameRegistry_set_group _ group).
Qed.

Lemma sameRegistry_clusterUpdate c d s :
  sameRegistry s (state (handleClusterUpdate c d s)).
Proof.
  unfold handleClusterUpdate. destruct (jmap_get c (clients s));
    [| apply sameRegistry_refl].
  apply sameRegistry_forEach. intros g s'.
  rewrite broadcastToGroup_state. apply sameRegistry_refl.
Qed.

Lemma message_symmetric c m now : preserves symmetric (handleMessage c m now).
Proof.
  intros s Hs. unfold handleMessage.
  destruct (jmap_get c (clients s)) as [client |] eqn:Hc; [| done].
  pose proof (sameRegistry_symmetric _ _ (sameRegistry_touch c client now s Hc) Hs)
    as Hs'.
  destruct m.
  - eapply sameRegistry_symmetric; [apply sameRegistry_heartbeat | done].
  - by apply join_symmetric.
  - by apply leave_symmetric.
  - eapply sameRegistry_symmetric; [apply sameRegistry_share | done].
  - eapply sameRegistry_symmetric; [apply sameRegistry_annotation | done].
  - eapply sameRegistry_symmetric; [apply sameRegistry_clusterUpdate | done].
  - done.
Qed.

(** *** One entry per key *)

Lemma jmap_delete_NoDup {V} k (m : list (string * V)) :
  NoDup (jmap_keys m) → NoDup (jmap_keys (jmap_delete k m)).
Proof. apply jmap_filter_NoDup. Qed.

Lemma join_wellFormed c g now : preserves wellFormed (λ s, handleJoinGroup c g now s).
Proof.
  intros s [Hg Hc].
  destruct (jmap_get c (clients s)) as [client |] eqn:Hcl.
  - rewrite (handleJoinGroup_state _ _ _ _ _ Hcl).
    split; simpl; by apply jmap_set_NoDup.
  - unfold handleJoinGroup. by rewrite Hcl.
Qed.

Lemma leave_wellFormed c g : preserves wellFormed (handleLeaveGroup c g).
Proof.
  intros s [Hg Hc].
  destruct (handleLeaveGroup_cases c g s)
    as [[Hk (client & group & Hcl & Hgr)] | [Hk ->]]; [| done].
  rewrite (handleLeaveGroup_state _ _ _ _ _ Hcl Hgr).
  split; simpl; [| by apply jmap_set_NoDup].
  case_decide; [apply jmap_delete_NoDup |]; by apply jmap_set_NoDup.
Qed.

Lemma disconnect_wellFormed c : preserves wellFormed (handleClientDisconnect c).
Proof.
  intros s Hs. unfold handleClientDisconnect.
  destruct (jmap_get c (clients s)) as [client |]; [| done].
  apply andThen_preserves.
  - apply forEach_preserves; [| done]. intros g _. apply leave_wellFormed.
  - intros s1 [Hg Hc]. split; simpl; [done | by apply jmap_delete_NoDup].
Qed.

Lemma set_group_wellFormed g group s :
  wellFormed s → wellFormed (mkServer (jmap_set g group (groups s)) (clients s)).
Proof. intros [Hg Hc]. split; simpl; [by apply jmap_set_NoDup | done]. Qed.

Lemma set_client_wellFormed c client s :
  wellFormed s → wellFormed (mkServer (groups s) (jmap_set c client (clients s))).
Proof. intros [Hg Hc]. split; simpl; [done | by apply jmap_set_NoDup]. Qed.

Lemma share_wellFormed c d now : preserves wellFormed (handleShareTab c d now).
Proof.
  intros s Hs. unfold handleShareTab.
  destruct (jmap_get c (clients s)) as [client |]; [| done].
  apply forEach_preserves; [| done]. intros g _ s' Hs'.
  destruct (jmap_get g (groups s')) as [group |] eqn:Hg.
  - rewrite (shareInto_state _ _ _ _ _ _ Hg). by apply set_group_wellFormed.
  - by rewrite shareInto_unknown.
Qed.

Lemma annotation_wellFormed c d now : preserves wellFormed (handleAnnotation c d now).
Proof.
  intros s Hs. unfold handleAnnotation.
  destruct (jmap_get c (clients s)) as [client |]; [| done].
  apply forEach_preserves; [| done]. intros g _ s' Hs'.
  destruct (jmap_get g (groups s')) as [group |] eqn:Hg; [| done].
  rewrite broadcastToGroup_state. by apply set_group_wellFormed.
Qed.

Lemma clusterUpdate_state c d s : state (handleClusterUpdate c d s) = s.
Proof.
  unfold handleClusterUpdate.
  destruct (jmap_get c (clients s)) as [client |]; [| done].
  apply (forEach_preserves (λ s', s' = s)); [| done].
  intros g _ s' ->. apply broadcastToGroup_state.
Qed.

Lemma heartbeat_wellFormed c now : preserves wellFormed (handleHeartbeat c now).
Proof.
  intros s Hs. unfold handleHeartbeat.
  destruct (jmap_get c (clients s)) as [client |]; [| done].
  case_decide; [| done]. by apply set_client_wellFormed.
Qed.

Lemma message_wellFormed c m now : preserves wellFormed (handleMessage c m now).
Proof.
  intros s Hs. unfold handleMessage.
  destruct (jmap_get c (clients s)) as [client |] eqn:Hc; [| done].
  pose proof (set_client_wellFormed c
                (Client.mk (Client.ws client) (Client.groups client) now) s Hs)
    as Hs'.
  destruct m.
  - by apply heartbeat_wellFormed.
  - by apply join_wellFormed.
  - by apply leave_wellFormed.
  - by apply share_wellFormed.
  - by apply annotation_wellFormed.
  - by rewrite clusterUpdate_state.
  - done.
Qed.

(** *** The cleanup timer *)

Lemma removeInactiveClients_preserves P now :
  (∀ c, preserves P (handleClientDisconnect c)) →
  preserves P (removeInactiveClients now).
Proof.
  intros HP s Hs. unfold removeInactiveClients.
  apply forEach_preserves; [| done]. intros c _ s' Hs'.
  destruct (jmap_get c (clients s')) as [client |]; [| done].
  case_decide; [by apply HP | done].
Qed.

Lemma removeOldEmptyGroups_get now s g :
  NoDup (jmap_keys (groups s)) →
  jmap_get g (groups (state (removeOldEmptyGroups now s)))
  = match jmap_get g (groups s) with
    | Some group =>
        if decide (length (Group.members group) = 0
                   ∧ (graceWindow < now - Group.created group)%Z)
        then None else Some group
    | None => None
    end.
Proof.
  intros Hnd. simpl. rewrite jmap_get_filter by done.
  destruct (jmap_get g (groups s)) as [group |]; [| done]. simpl.
  repeat case_decide; tauto.
Qed.

Lemma removeOldEmptyGroups_consistent now :
  preserves consistent (removeOldEmptyGroups now).
Proof.
  intros s [[Hg Hc] Hs]. split.
  - split; simpl; [by apply jmap_filter_NoDup | done].
  - intros c g. rewrite <- (Hs c g). unfold member.
    rewrite removeOldEmptyGroups_get by done.
    destruct (jmap_get g (groups s)) as [group |]; [| done].
    case_decide as Hold; [| done].
    split; [intros (? & [=] & _) |].
    intros (? & [= <-] & Hin). destruct Hold as [Hlen _].
    apply nil_length_inv in Hlen. rewrite Hlen in Hin.
    by apply elem_of_nil in Hin.
Qed.

Lemma consistent_preserves f :
  preserves wellFormed f → preserves symmetric f → preserves consistent f.
Proof. intros Hw Hs s [? ?]. split; [by apply Hw | by apply Hs]. Qed.

Lemma cleanup_consistent now : preserves consistent (cleanup now).
Proof.
  intros s Hs. unfold cleanup. apply andThen_preserves.
  - apply removeInactiveClients_preserves; [| done]. intros c.
    apply consistent_preserves;
      [apply disconnect_wellFormed | apply disconnect_symmetric].
  - apply removeOldEmptyGroups_consistent.
Qed.

Lemma step_consistent e : preserves consistent (step e).
Proof.
  destruct e; simpl.
  - apply consistent_preserves; [apply join_wellFormed | apply join_symmetric].
  - apply consistent_preserves; [apply leave_wellFormed | apply leave_symmetric].
  - apply consistent_preserves;
      [apply disconnect_wellFormed | apply disconnect_symmetric].
  - apply consistent_preserves; [apply message_wellFormed | apply message_symmetric].
  - apply cleanup_consistent.
Qed.

Lemma run_consistent es s : consistent s → consistent (run es s).
Proof.
  unfold run. revert s. induction es as [| e es IH]; intros s Hs; [done |].
  simpl. apply IH. by apply step_consistent.
Qed.

(** A server on which nobody has joined anything yet. *)
Lemma fresh_consistent cs :
  NoDup (jmap_keys cs) →
  Forall (λ e : string * Client.t, Client.groups e.2 = []) cs →
  consistent (mkServer [] cs).
Proof.
  intros Hnd Hcs. split; [split; [apply NoDup_nil_2 | done] |].
  intros c g. split.
  - intros (? & [=] & _).
  - intros (client & Hget & Hin). simpl in Hget.
    apply jmap_get_elem in Hget.
    rewrite Forall_forall in Hcs. apply Hcs in Hget. simpl in Hget.
    rewrite Hget in Hin. by apply elem_of_nil in Hin.
Qed.

(** C6. After every sequence of joins, leaves and disconnects (and of
    envelopes of any type and cleanup ticks besides) on registries that
    are symmetric, a connection is in the member set of a group exactly
    when the group is in the set of groups the connection joined. *)
Theorem registry_symmetry (es : list Event) (s : Server) :
  consistent s →
  ∀ c g, member c g (run es s) ↔ joined c g (run es s).
Proof. intros Hs. by apply run_consistent. Qed.

Lemma twoClients_consistent : consistent twoClients.
Proof.
  apply fresh_consistent.
  - unfold jmap_keys. simpl. apply NoDup_cons. split.
    + rewrite list_elem_of_singleton. done.
    + apply NoDup_singleton.
  - repeat constructor.
Qed.

Lemma registry_symmetry_witness :
  consistent twoClients
  ∧ ∀ c g,
      member c g
        (run [Join "a" "g" 1; Join "b" "g" 2; Leave "a" "g"; Disconnect "b"]
           twoClients)
      ↔ joined c g
          (run [Join "a" "g" 1; Join "b" "g" 2; Leave "a" "g"; Disconnect "b"]
             twoClients).
Proof.
  split; [exact twoClients_consistent |].
  exact (registry_symmetry _ twoClients twoClients_consistent).
Defined.

Lemma connection_consistent c ws now s :
  jmap_get c (clients s) = None →
  consistent s → consistent (state (handleConnection c ws now s)).
Proof.
  intros Hc [Hw Hs]. split; [by apply set_client_wellFormed |].
  intros c' g. specialize (Hs c' g). unfold member, joined in *. simpl.
  rewrite jmap_get_set. destruct (decide (c = c')) as [<- | Hne]; [| done].
  rewrite Hs, Hc. split; [intros (? & [=] & _) |].
  intros (? & [= <-] & Hin). by apply elem_of_nil in Hin.
Qed.

(** *** Joining again *)

Lemma join_present c g now s client group :
  jmap_get c (clients s) = Some client → g ∈ Client.groups client →
  jmap_get g (groups s) = Some group → c ∈ Group.members group →
  state (handleJoinGroup c g now s) = s.
Proof.
  intros Hc Hj Hg Hm.
  rewrite (handleJoinGroup_state _ _ _ _ _ Hc), Hg. simpl.
  unfold joinedGroup. rewrite !jset_add_id by done.
  rewrite !jmap_set_id; [by destruct s | by destruct client | by destruct group].
Qed.

(** C8. For a connection that is already a member of the group, in both
    registries, another join leaves the registries as they are: the
    member set of the group, its history of shared tabs, its annotation
    log and the set of groups of the connection. *)
Theorem join_again_unchanged (c g : string) (now : Z) (s : Server) :
  member c g s → joined c g s →
  state (handleJoinGroup c g now s) = s.
Proof.
  intros (group & Hg & Hm) (client & Hc & Hj). by eapply join_present.
Qed.

Lemma join_again_unchanged_witness :
  member "a" "g" oneGroup ∧ joined "a" "g" oneGroup
  ∧ state (handleJoinGroup "a" "g" 9 oneGroup) = oneGroup.
Proof.
  assert (member "a" "g" oneGroup) as Hm.
  { eexists. split; [reflexivity | simpl; left]. }
  assert (joined "a" "g" oneGroup) as Hj.
  { eexists. split; [reflexivity | simpl; left]. }
  split; [exact Hm |]. split; [exact Hj |].
  exact (join_again_unchanged "a" "g" 9 oneGroup Hm Hj).
Defined.

Lemma join_twice (c g : string) (now now' : Z) (s : Server) :
  state (handleJoinGroup c g now' (state (handleJoinGroup c g now s)))
  = state (handleJoinGroup c g now s).
Proof.
  destruct (jmap_get c (clients s)) as [client |] eqn:Hc.
  - assert (member c g (state (handleJoinGroup c g now s))) as (group & Hg & Hm)
      by (apply (member_join _ _ _ _ _ _ _ Hc); by right).
    assert (joined c g (state (handleJoinGroup c g now s))) as (client' & Hc' & Hj)
      by (apply (joined_join _ _ _ _ _ _ _ Hc); by right).
    by eapply join_present.
  - unfold handleJoinGroup at 2 3. rewrite Hc. simpl.
    unfold handleJoinGroup. by rewrite Hc.
Qed.

(** *** Unknown identifiers *)

(** C9. On an unknown connection identifier every handler returns with
    the registries as they were and nothing sent, and so do a leave
    and a broadcast on an unknown group identifier. *)
Theorem unknown_identifier_noop (s : Server) :
  (∀ c, jmap_get c (clients s) = None →
     (∀ m now, handleMessage c m now s = ret s)
     ∧ (∀ now, handleHeartbeat c now s = ret s)
     ∧ (∀ g now, handleJoinGroup c g now s = ret s)
     ∧ (∀ g, handleLeaveGroup c g s = ret s)
     ∧ (∀ d now, handleShareTab c d now s = ret s)
     ∧ (∀ d now, handleAnnotation c d now s = ret s)
     ∧ (∀ d, handleClusterUpdate c d s = ret s)
     ∧ handleClientDisconnect c s = ret s)
  ∧ (∀ g, jmap_get g (groups s) = None →
       (∀ c, handleLeaveGroup c g s = ret s)
       ∧ (∀ m e, broadcastToGroup g m e s = ret s)).
Proof.
  split.
  - intros c Hc. split_and!; intros;
      try (apply handleLeaveGroup_unknown; by left);
      unfold handleMessage, handleHeartbeat, handleJoinGroup, handleShareTab,
        handleAnnotation, handleClusterUpdate, handleClientDisconnect;
      by rewrite Hc.
  - intros g Hg. split; intros.
    + apply handleLeaveGroup_unknown. by right.
    + unfold broadcastToGroup. by rewrite Hg.
Qed.

Lemma unknown_identifier_noop_witness :
  jmap_get "z" (clients twoClients) = None
  ∧ jmap_get "g" (groups twoClients) = None
  ∧ handleMessage "z" (join_group "g") 5 twoClients = ret twoClients
  ∧ handleLeaveGroup "a" "g" twoClients = ret twoClients.
Proof.
  split; [reflexivity |]. split; [reflexivity |]. split.
  - exact (proj1 (proj1 (unknown_identifier_noop twoClients) "z" eq_refl)
             (join_group "g") 5%Z).
  - exact (proj1 (proj2 (unknown_identifier_noop twoClients) "g" eq_refl) "a").
Defined.

(** *** Liveness *)

Example cleanup_windows : timeout = 300000%Z ∧ graceWindow = 3600000%Z.
Proof. split; reflexivity. Qed.

(** Of two connections last seen at 0, the one heard from at 400000 is
    kept by the cleanup of 700000 and the silent one is removed. *)
Example cleanup_removes_the_silent :
  jmap_keys
    (clients
       (state (cleanup 700000
          (state (handleMessage "a" (unrecognized "typing") 400000 twoClients)))))
  = ["a"].
Proof. reflexivity. Qed.











(** *** The last member leaves *)

(** C2, as stated, fails: the leave of the only member removes the
    group at once, and a join one second later finds no history. *)
Lemma leave_removes_emptied_group :
  history "g" oneGroup = [sampleTab]
  ∧ jmap_get "g" (groups (state (handleLeaveGroup "a" "g" oneGroup))) = None
  ∧ history "g"
      (state (handleJoinGroup "a" "g" 1000
         (state (handleLeaveGroup "a" "g" oneGroup))))
    ≠ history "g" oneGroup.
Proof. split; [reflexivity |]. split; [reflexivity |]. by vm_compute. Qed.

(** *** Groups without members

    Every group has a member when the handlers are through with it: the
    cleanup finds no empty group to age out. *)

Lemma sameRegistry_populated s s' : sameRegistry s s' → populated s → populated s'.
Proof.
  intros [Hg _] Hs g group' Hget. specialize (Hg g). rewrite Hget in Hg.
  destruct (jmap_get g (groups s)) as [group |] eqn:Hget0; [| done].
  injection Hg as Hm. rewrite Hm. by apply (Hs g).
Qed.

Lemma join_populated c g now : preserves populated (λ s, handleJoinGroup c g now s).
Proof.
  intros s Hs g' group'.
  destruct (jmap_get c (clients s)) as [client |] eqn:Hc.
  - rewrite (handleJoinGroup_state _ _ _ _ _ Hc). simpl. rewrite jmap_get_set.
    case_decide; [| apply Hs]. intros [= <-]. simpl. intros Hnil.
    assert (c ∈ ([] : list string)) as Hin; [| by apply elem_of_nil in Hin].
    rewrite <- Hnil. apply jset_add_elem. by left.
  - unfold handleJoinGroup. rewrite Hc. apply Hs.
Qed.

Lemma leave_populated c g : preserves populated (handleLeaveGroup c g).
Proof.
  intros s Hs g' group'.
  destruct (handleLeaveGroup_cases c g s)
    as [[Hk (client & group & Hc & Hg)] | [Hk ->]]; [| apply Hs].
  rewrite (handleLeaveGroup_state _ _ _ _ _ Hc Hg). simpl.
  case_decide as Hlen.
  - rewrite jmap_get_delete. case_decide; [done |].
    rewrite jmap_get_set_ne by done. apply Hs.
  - rewrite jmap_get_set. case_decide; [| apply Hs].
    intros [= <-]. simpl. intros Hnil. by rewrite Hnil in Hlen.
Qed.

Lemma disconnect_populated c : preserves populated (handleClientDisconnect c).
Proof.
  intros s Hs. unfold handleClientDisconnect.
  destruct (jmap_get c (clients s)) as [client |]; [| done].
  apply andThen_preserves; [| by intros s1 Hs1].
  apply forEach_preserves; [| done]. intros g _. apply leave_populated.
Qed.

Lemma message_populated c m now : preserves populated (handleMessage c m now).
Proof.
  intros s Hs. unfold handleMessage.
  destruct (jmap_get c (clients s)) as [client |] eqn:Hc; [| done].
  pose proof (sameRegistry_populated _ _ (sameRegistry_touch c client now s Hc) Hs)
    as Hs'.
  destruct m.
  - eapply sameRegistry_populated; [apply sameRegistry_heartbeat | done].
  - by apply join_populated.
  - by apply leave_populated.
  - eapply sameRegistry_populated; [apply sameRegistry_share | done].
  - eapply sameRegistry_populated; [apply sameRegistry_annotation | done].
  - eapply sameRegistry_populated; [apply sameRegistry_clusterUpdate | done].
  - done.
Qed.

Lemma removeOldEmptyGroups_idle now s :
  wellFormed s → populated s → state (removeOldEmptyGroups now s) = s.
Proof.
  intros [Hnd _] Hs. destruct s as [gs cs]. simpl in *. f_equal.
  apply filter_all, Forall_forall. intros [g group] Hin [Hlen _].
  apply nil_length_inv in Hlen. simpl in Hlen.
  by apply (Hs g group); [apply jmap_elem_get |].
Qed.

Lemma step_populated e s :
  wellFormed s → populated s →
  wellFormed (state (step e s)) ∧ populated (state (step e s)).
Proof.
  intros Hw Hs. destruct e; simpl.
  - split; [by apply join_wellFormed | by apply join_populated].
  - split; [by apply leave_wellFormed | by apply leave_populated].
  - split; [by apply disconnect_wellFormed | by apply disconnect_populated].
  - split; [by apply message_wellFormed | by apply message_populated].
  - unfold cleanup.
    apply (andThen_preserves (λ s, wellFormed s ∧ populated s)).
    + apply (removeInactiveClients_preserves (λ s, wellFormed s ∧ populated s));
        [| done].
      intros c s1 [Hw1 Hs1].
      split; [by apply disconnect_wellFormed | by apply disconnect_populated].
    + intros s1 [Hw1 Hs1]. by rewrite removeOldEmptyGroups_idle.
Qed.

(** On a server that started without groups, the second pass of the
    cleanup never has a group to remove. *)
Lemma cleanup_finds_no_empty_group es now s :
  wellFormed s → populated s →
  state (removeOldEmptyGroups now (run es s)) = run es s.
Proof.
  intros Hw Hs.
  assert (wellFormed (run es s) ∧ populated (run es s)) as [Hw' Hs'].
  { unfold run. revert s Hw Hs. induction es as [| e es IH]; intros s Hw Hs; [done |].
    simpl. destruct (step_populated e s Hw Hs). by apply IH. }
  by apply removeOldEmptyGroups_idle.
Qed.

(** A [share_tab] envelope without [data] from a member of two groups:
    the first group gets the record, the handler throws, the second
    group gets nothing. *)
Example share_without_payload :
  let s :=
    mkServer
      [("g", Group.mk "g" ["a"] [] [] 0); ("h", Group.mk "h" ["a"] [] [] 0)]
      [("a", Client.mk OPEN ["g"; "h"] 0)] in
  completion (handleShareTab "a" None 7 s) = Threw
  ∧ length (history "g" (state (handleShareTab "a" None 7 s))) = 1
  ∧ history "h" (state (handleShareTab "a" None 7 s)) = []
  ∧ deliveries None ["g"; "h"] "g" s = 1
  ∧ deliveries None ["g"; "h"] "h" s = 0.
Proof. repeat split. Qed.

(** *** The bounded history *)

Lemma slice_last_short {A} n (l : list A) : length l ≤ n → slice_last n l = l.
Proof. intros Hl. unfold slice_last. by replace (length l - n) with 0 by lia. Qed.

Lemma slice_last_length {A} n (l : list A) :
  n ≤ length l → length (slice_last n l) = n.
Proof. intros Hl. unfold slice_last. rewrite length_drop. lia. Qed.

Lemma slice_last_app {A} n (l l' : list A) :
  slice_last n (slice_last n l ++ l') = slice_last n (l ++ l').
Proof.
  destruct (decide (length l ≤ n)) as [Hl | Hl].
  - by rewrite (slice_last_short n l).
  - unfold slice_last. rewrite !length_app, length_drop.
    replace (length l - (length l - n) + length l' - n) with (length l') by lia.
    replace (length l + length l' - n) with ((length l - n) + length l') by lia.
    rewrite <- drop_drop. f_equal.
    rewrite drop_app. replace (length l - n - length l) with 0 by lia. done.
Qed.

Lemma slice_last_app_r {A} n (l l' : list A) :
  n ≤ length l' → slice_last n (l ++ l') = slice_last n l'.
Proof.
  intros Hn. unfold slice_last. rewrite length_app, drop_app.
  replace (length l + length l' - n - length l) with (length l' - n) by lia.
  rewrite drop_ge by lia. done.
Qed.

Lemma pushShared_slice r h : pushShared r h = slice_last historyLimit (h ++ [r]).
Proof.
  unfold pushShared. case_decide as Hlen; [done |].
  rewrite slice_last_short; [done | lia].
Qed.

Lemma pushAll_slice h rs :
  rs ≠ [] → pushAll h rs = slice_last historyLimit (h ++ rs).
Proof.
  unfold pushAll. revert h. induction rs as [| r rs IH]; intros h Hrs; [done |].
  simpl. rewrite pushShared_slice. destruct rs as [| r' rs]; [done |].
  rewrite IH by done. rewrite slice_last_app. by rewrite <- app_assoc.
Qed.

Lemma pushAll_app h rs rs' : pushAll h (rs ++ rs') = pushAll (pushAll h rs) rs'.
Proof. apply foldl_app. Qed.

(** More than a hundred arrivals: the hundred latest are left, in order
    of arrival. *)
Lemma pushAll_many h rs :
  historyLimit < length rs →
  pushAll h rs = drop (length rs - historyLimit) rs
  ∧ length (pushAll h rs) = historyLimit.
Proof.
  intros Hn. assert (rs ≠ []) as Hrs by (intros ->; simpl in Hn; lia).
  rewrite pushAll_slice by done. rewrite slice_last_app_r by lia.
  split; [done |]. apply slice_last_length. lia.
Qed.

Lemma sameGroups_refl s : sameGroups s s.
Proof. by split. Qed.

Lemma sameGroups_trans s1 s2 s3 :
  sameGroups s1 s2 → sameGroups s2 s3 → sameGroups s1 s3.
Proof.
  intros [Hc1 Hg1] [Hc2 Hg2]. split; [congruence |].
  intros g. by rewrite Hg2, Hg1.
Qed.

Lemma sameGroups_shareInto c d now g s : sameGroups s (state (shareInto c d now g s)).
Proof.
  destruct (jmap_get g (groups s)) as [group |] eqn:Hg.
  - rewrite (shareInto_state _ _ _ _ _ _ Hg). split; [done |]. intros x. simpl.
    rewrite jmap_get_set. case_decide; [subst; rewrite Hg; split; eauto | done].
  - rewrite shareInto_unknown by done. apply sameGroups_refl.
Qed.

Lemma sameGroups_share op s : sameGroups s (share op s).
Proof.
  unfold share, handleShareTab.
  destruct (jmap_get op.1.1 (clients s)); [| apply sameGroups_refl].
  apply (forEach_preserves (sameGroups s)); [| apply sameGroups_refl].
  intros g _ s' Hs'. eapply sameGroups_trans; [exact Hs' |].
  apply sameGroups_shareInto.
Qed.

Lemma deliveries_sameGroups d gs g s s' :
  sameGroups s s' → deliveries d gs g s' = deliveries d gs g s.
Proof.
  intros [_ Hg]. induction gs as [| g0 gs IH]; simpl; [done |].
  specialize (Hg g0).
  destruct (jmap_get g0 (groups s')) as [gr' |], (jmap_get g0 (groups s)) as [gr |];
    try (by rewrite IH).
  - destruct Hg as [Hg _]. by destruct Hg as [? [=]].
  - destruct Hg as [_ Hg]. by destruct Hg as [? [=]].
Qed.

Lemma history_shareInto c d now g0 g s :
  history g (state (shareInto c d now g0 s))
  = if decide (g0 = g ∧ is_Some (jmap_get g0 (groups s)))
    then pushShared (completeTabData d c now) (history g s)
    else history g s.
Proof.
  unfold history.
  destruct (jmap_get g0 (groups s)) as [group |] eqn:Hg.
  - rewrite (shareInto_state _ _ _ _ _ _ Hg). simpl. rewrite jmap_get_set.
    destruct (decide (g0 = g)) as [<- | Hne].
    + rewrite decide_True by eauto. by rewrite Hg.
    + rewrite decide_False by tauto. done.
  - rewrite shareInto_unknown by done. simpl.
    rewrite decide_False; [done |]. intros [_ [? [=]]].
Qed.

Lemma history_forEach_shareInto c d now gs g s :
  history g (state (forEach (shareInto c d now) gs s))
  = pushAll (history g s)
      (replicate (deliveries d gs g s) (completeTabData d c now)).
Proof.
  revert s. induction gs as [| g0 gs IH]; intros s; [done |].
  rewrite forEach_cons. simpl.
  pose proof (shareInto_completion c d now g0 s) as Hco.
  pose proof (history_shareInto c d now g0 g s) as Hh.
  pose proof (deliveries_sameGroups d gs g s _ (sameGroups_shareInto c d now g0 s))
    as Hd.
  destruct (jmap_get g0 (groups s)) as [group |] eqn:Hg.
  - destruct d as [t |].
    + rewrite andThen_returned by done. rewrite IH, Hh, Hd.
      destruct (decide (g0 = g)) as [-> | Hne].
      * rewrite decide_True by eauto. done.
      * rewrite decide_False by tauto. done.
    + unfold andThen. rewrite Hco, Hh.
      destruct (decide (g0 = g)) as [-> | Hne].
      * rewrite decide_True by eauto. done.
      * rewrite decide_False by tauto. done.
  - rewrite andThen_returned by done. rewrite IH, Hh, Hd.
    rewrite decide_False; [done |]. intros [_ [? [=]]].
Qed.

Lemma history_share op g s :
  history g (share op s)
  = pushAll (history g s)
      (replicate
         (deliveries op.1.2
            (from_option Client.groups [] (jmap_get op.1.1 (clients s))) g s)
         (completeTabData op.1.2 op.1.1 op.2)).
Proof.
  unfold share, handleShareTab.
  destruct (jmap_get op.1.1 (clients s)) as [client |]; [| done].
  apply history_forEach_shareInto.
Qed.

Lemma arrivalsInto_sameGroups g ops s s' :
  sameGroups s s' → arrivalsInto g ops s' = arrivalsInto g ops s.
Proof.
  intros Hs. unfold arrivalsInto. induction ops as [| op ops IH]; [done |].
  simpl. rewrite IH. f_equal.
  rewrite (deliveries_sameGroups _ _ _ _ _ Hs). destruct Hs as [-> _]. done.
Qed.

Lemma history_shares g ops s :
  history g (foldl (λ s op, share op s) s ops)
  = pushAll (history g s) (arrivalsInto g ops s).
Proof.
  revert s. induction ops as [| op ops IH]; intros s; [done |].
  simpl. rewrite IH, history_share.
  rewrite (arrivalsInto_sameGroups _ _ _ _ (sameGroups_share op s)).
  unfold arrivalsInto at 2. simpl. by rewrite pushAll_app.
Qed.

(** A well-formed share by a member of an existing group delivers one
    record into it. *)
Lemma deliveries_member t gs g s :
  NoDup gs → g ∈ gs → is_Some (jmap_get g (groups s)) →
  deliveries (Some t) gs g s = 1.
Proof.
  intros Hnd Hin [group Hg]. induction gs as [| g0 gs IH]; simpl.
  - by apply elem_of_nil in Hin.
  - apply NoDup_cons in Hnd as [Hg0 Hnd].
    assert (g ∉ gs → deliveries (Some t) gs g s = 0) as Hzero.
    { clear. induction gs as [| g1 gs IH]; intros Hni; simpl; [done |].
      apply not_elem_of_cons in Hni as [Hne Hni].
      destruct (jmap_get g1 (groups s)); rewrite IH by done; [| done].
      by rewrite decide_False. }
    apply elem_of_cons in Hin as [-> | Hin].
    + rewrite Hg, decide_True by done. by rewrite Hzero.
    + destruct (jmap_get g0 (groups s)); [| by apply IH].
      rewrite decide_False by (intros ->; done). by rewrite IH.
Qed.

(** C5. After calls of [handleShareTab] that deliver more than a
    hundred records into a group, the history of the group has exactly
    a hundred records: the hundred that arrived last, in the order
    they arrived. *)
Theorem history_keeps_latest_hundred (g : string) (ops : list Share) (s : Server) :
  100 < length (arrivalsInto g ops s) →
  length (history g (foldl (λ s op, share op s) s ops)) = 100
  ∧ history g (foldl (λ s op, share op s) s ops)
    = drop (length (arrivalsInto g ops s) - 100) (arrivalsInto g ops s).
Proof.
  intros Hn. rewrite history_shares.
  destruct (pushAll_many (history g s) (arrivalsInto g ops s) Hn) as [Heq Hlen].
  by split.
Qed.

Lemma history_keeps_latest_hundred_witness :
  100 < length (arrivalsInto "g" manyShares oneGroup)
  ∧ length (history "g" (foldl (λ s op, share op s) oneGroup manyShares)) = 100
  ∧ history "g" (foldl (λ s op, share op s) oneGroup manyShares)
    = drop (length (arrivalsInto "g" manyShares oneGroup) - 100)
        (arrivalsInto "g" manyShares oneGroup).
Proof.
  assert (100 < length (arrivalsInto "g" manyShares oneGroup)) as Hn
    by (vm_compute; lia).
  split; [exact Hn |].
  exact (history_keeps_latest_hundred "g" manyShares oneGroup Hn).
Defined.

(** ** Further properties of the relay server *)

(** *** Histories stay within the limit *)

Lemma jmap_set_entries {V} (P : string * V → Prop) k v (m : list (string * V)) :
  P (k, v) → Forall P m → Forall P (jmap_set k v m).
Proof.
  intros Hkv. induction 1 as [| [k' v'] m Hx Hm IH]; simpl.
  - by repeat constructor.
  - case_decide; constructor; done.
Qed.

Lemma jmap_get_entries {V} (P : string * V → Prop) k v (m : list (string * V)) :
  Forall P m → jmap_get k m = Some v → P (k, v).
Proof.
  intros Hm Hget. apply jmap_get_elem in Hget.
  rewrite Forall_forall in Hm. by apply Hm.
Qed.

Lemma Forall_kept {A} (P Q : A → Prop) `{∀ x, Decision (Q x)} (l : list A) :
  Forall P l → Forall P (filter Q l).
Proof.
  rewrite !Forall_forall. intros Hl x [_ Hx]%list_elem_of_filter. by apply Hl.
Qed.

Lemma pushShared_length r h : length (pushShared r h) ≤ historyLimit.
Proof.
  unfold pushShared. case_decide as Hlen; [| lia].
  rewrite slice_last_length; lia.
Qed.

Lemma bounded_same_history g group group' s :
  jmap_get g (groups s) = Some group →
  Group.sharedTabs group' = Group.sharedTabs group →
  bounded s → bounded (mkServer (jmap_set g group' (groups s)) (clients s)).
Proof.
  intros Hg Hh Hs. apply jmap_set_entries; [| done]. simpl. rewrite Hh.
  apply (jmap_get_entries _ _ _ _ Hs Hg).
Qed.

Lemma join_bounded c g now : preserves bounded (λ s, handleJoinGroup c g now s).
Proof.
  intros s Hs. destruct (jmap_get c (clients s)) as [client |] eqn:Hc.
  - rewrite (handleJoinGroup_state _ _ _ _ _ Hc).
    apply jmap_set_entries; [| done]. simpl.
    destruct (jmap_get g (groups s)) as [group |] eqn:Hg; simpl.
    + apply (jmap_get_entries _ _ _ _ Hs Hg).
    + unfold historyLimit. lia.
  - unfold handleJoinGroup. by rewrite Hc.
Qed.

Lemma leave_bounded c g : preserves bounded (handleLeaveGroup c g).
Proof.
  intros s Hs.
  destruct (handleLeaveGroup_cases c g s)
    as [[Hk (client & group & Hc & Hg)] | [Hk ->]]; [| done].
  rewrite (handleLeaveGroup_state _ _ _ _ _ Hc Hg). unfold bounded. simpl.
  assert (Forall (λ e : string * Group.t,
            length (Group.sharedTabs e.2) ≤ historyLimit)
            (jmap_set g (leftGroup c group) (groups s))) as Hset.
  { apply jmap_set_entries; [| done]. apply (jmap_get_entries _ _ _ _ Hs Hg). }
  case_decide; [by apply Forall_kept | done].
Qed.

Lemma disconnect_bounded c : preserves bounded (handleClientDisconnect c).
Proof.
  intros s Hs. unfold handleClientDisconnect.
  destruct (jmap_get c (clients s)) as [client |]; [| done].
  apply andThen_preserves; [| by intros s1 Hs1].
  apply forEach_preserves; [| done]. intros g _. apply leave_bounded.
Qed.

Lemma share_bounded c d now : preserves bounded (handleShareTab c d now).
Proof.
  intros s Hs. unfold handleShareTab.
  destruct (jmap_get c (clients s)) as [client |]; [| done].
  apply forEach_preserves; [| done]. intros g _ s' Hs'.
  destruct (jmap_get g (groups s')) as [group |] eqn:Hg.
  - rewrite (shareInto_state _ _ _ _ _ _ Hg).
    apply jmap_set_entries; [| done]. simpl. apply pushShared_length.
  - by rewrite shareInto_unknown.
Qed.

Lemma annotation_bounded c d now : preserves bounded (handleAnnotation c d now).
Proof.
  intros s Hs. unfold handleAnnotation.
  destruct (jmap_get c (clients s)) as [client |]; [| done].
  apply forEach_preserves; [| done]. intros g _ s' Hs'.
  destruct (jmap_get g (groups s')) as [group |] eqn:Hg; [| done].
  rewrite broadcastToGroup_state. by apply (bounded_same_history _ group).
Qed.

Lemma heartbeat_groups c now s : groups (state (handleHeartbeat c now s)) = groups s.
Proof.
  unfold handleHeartbeat. destruct (jmap_get c (clients s)); [| done].
  by case_decide.
Qed.

Lemma message_bounded c m now : preserves bounded (handleMessage c m now).
Proof.
  intros s Hs. unfold handleMessage.
  destruct (jmap_get c (clients s)) as [client |] eqn:Hc; [| done].
  set (s' := mkServer _ _). assert (bounded s') as Hs' by done.
  destruct m.
  - unfold bounded. by rewrite heartbeat_groups.
  - by apply join_bounded.
  - by apply leave_bounded.
  - by apply share_bounded.
  - by apply annotation_bounded.
  - by rewrite clusterUpdate_state.
  - done.
Qed.

Lemma cleanup_bounded now : preserves bounded (cleanup now).
Proof.
  intros s Hs. unfold cleanup. apply andThen_preserves.
  - apply removeInactiveClients_preserves; [| done]. apply disconnect_bounded.
  - intros s1 Hs1. unfold bounded. simpl. by apply Forall_kept.
Qed.

Lemma step_bounded e : preserves bounded (step e).
Proof.
  destruct e; simpl.
  - apply join_bounded.
  - apply leave_bounded.
  - apply disconnect_bounded.
  - apply message_bounded.
  - apply cleanup_bounded.
Qed.

Lemma run_bounded es s : bounded s → bounded (run es s).
Proof.
  unfold run. revert s. induction es as [| e es IH]; intros s Hs; [done |].
  simpl. apply IH. by apply step_bounded.
Qed.

Lemma totalSharedTabs_le (gs : list (string * Group.t)) n :
  Forall (λ e, length (Group.sharedTabs e.2) ≤ historyLimit) gs →
  foldl (λ sum e, sum + length (Group.sharedTabs e.2)) n gs
  ≤ n + historyLimit * length gs.
Proof.
  unfold historyLimit. intros Hgs. revert n.
  induction Hgs as [| e gs He Hgs IH]; intros n; cbn [foldl length].
  - lia.
  - specialize (IH (n + length (Group.sharedTabs e.2))). lia.
Qed.

(** X1. Whatever reaches a server none of whose histories is over a
    hundred records, none is afterwards: of any group, whoever shares
    into it and however often. *)
Theorem histories_stay_within_limit (es : list Event) (s : Server) (g : string) :
  bounded s → length (history g (run es s)) ≤ 100.
Proof.
  intros Hs. apply (run_bounded es) in Hs. unfold history.
  destruct (jmap_get g (groups (run es s))) as [group |] eqn:Hg; simpl.
  - apply (jmap_get_entries _ _ _ _ Hs Hg).
  - lia.
Qed.

Lemma oneGroup_bounded : bounded oneGroup.
Proof. unfold bounded, historyLimit. repeat constructor. Qed.

Lemma histories_stay_within_limit_witness :
  bounded oneGroup
  ∧ length (history "g"
      (run [Message "a" (share_tab (Some sampleTab)) 5; Join "a" "h" 6;
            Message "a" (share_tab None) 7] oneGroup)) ≤ 100.
Proof.
  split; [exact oneGroup_bounded |].
  exact (histories_stay_within_limit _ oneGroup "g" oneGroup_bounded).
Defined.

(** X2. The statistics of such a server never report more shared tabs
    than a hundred for each group they report. *)
Theorem stats_within_limit (es : list Event) (s : Server) :
  bounded s →
  totalSharedTabs (getStats (run es s))
  ≤ 100 * activeGroups (getStats (run es s)).
Proof.
  intros Hs. apply (run_bounded es) in Hs. simpl.
  by apply (totalSharedTabs_le _ 0) in Hs.
Qed.

Lemma stats_within_limit_witness :
  bounded oneGroup
  ∧ totalSharedTabs (getStats (run [Join "a" "h" 6; Sweep 9] oneGroup))
    ≤ 100 * activeGroups (getStats (run [Join "a" "h" 6; Sweep 9] oneGroup)).
Proof.
  split; [exact oneGroup_bounded |].
  exact (stats_within_limit _ oneGroup oneGroup_bounded).
Defined.

(** *** Who is written to *)

Lemma send_elem c client m e :
  e ∈ send c client m ↔ e = (c, m) ∧ Client.ws client = OPEN.
Proof.
  unfold send. case_decide as Hopen.
  - rewrite list_elem_of_singleton. tauto.
  - split; [by intros ?%elem_of_nil | tauto].
Qed.

Lemma broadcast_sent g m e s c m' :
  (c, m') ∈ sent (broadcastToGroup g m e s)
  ↔ m' = m ∧ member c g s ∧ reachable c s ∧ e ≠ Some c.
Proof.
  unfold broadcastToGroup, member, reachable.
  destruct (jmap_get g (groups s)) as [group |]; simpl.
  - rewrite list_elem_of_In, in_flat_map. split.
    + intros (x & Hx%list_elem_of_In & Hin%list_elem_of_In).
      case_decide as He; [by apply elem_of_nil in Hin |].
      destruct (jmap_get x (clients s)) as [client |] eqn:Hcl;
        [| by apply elem_of_nil in Hin].
      apply send_elem in Hin as [[= -> ->] Hopen]. eauto 10.
    + intros (-> & (gr & [= <-] & Hin) & (client & Hcl & Hopen) & He).
      exists c. split; [by apply list_elem_of_In |]. apply list_elem_of_In.
      rewrite decide_False, Hcl by done. by apply send_elem.
  - split; [by intros ?%elem_of_nil | intros (_ & (? & [=] & _) & _)].
Qed.

Lemma narrows_refl s : narrows s s.
Proof. intros c client Hc. eauto. Qed.

Lemma narrows_trans s1 s2 s3 : narrows s1 s2 → narrows s2 s3 → narrows s1 s3.
Proof.
  intros H12 H23 c client3 Hc.
  destruct (H23 c client3 Hc) as (client2 & Hc2 & Hws2).
  destruct (H12 c client2 Hc2) as (client1 & Hc1 & Hws1).
  exists client1. split; [done | congruence].
Qed.

Lemma narrows_same_clients s s' : clients s' = clients s → narrows s s'.
Proof. intros Heq c client Hc. rewrite Heq in Hc. eauto. Qed.

Lemma narrows_set_client c client client' s :
  jmap_get c (clients s) = Some client →
  Client.ws client' = Client.ws client →
  narrows s (mkServer (groups s) (jmap_set c client' (clients s))).
Proof.
  intros Hc Hws c0 client0. simpl. rewrite jmap_get_set.
  case_decide; [intros [= <-]; subst; eauto | eauto].
Qed.

Lemma narrows_delete_client c s :
  narrows s (mkServer (groups s) (jmap_delete c (clients s))).
Proof.
  intros c0 client0. simpl. rewrite jmap_get_delete. case_decide; [done | eauto].
Qed.

Lemma reachable_narrows s s' c : narrows s s' → reachable c s' → reachable c s.
Proof.
  intros Hn (client' & Hc & Hopen).
  destruct (Hn c client' Hc) as (client & Hc0 & Hws).
  exists client. split; [done | congruence].
Qed.

Lemma polite_ret s : polite s (ret s).
Proof. split; [apply narrows_refl | constructor]. Qed.

Lemma polite_narrows s s' r : narrows s s' → polite s' r → polite s r.
Proof.
  intros Hn [Hn' Hsent]. split; [by eapply narrows_trans |].
  eapply Forall_impl; [exact Hsent |]. intros e. by apply reachable_narrows.
Qed.

Lemma polite_andThen s r k :
  polite s r → polite (state r) (k (state r)) → polite s (r >>> k).
Proof.
  intros [Hn Hsent] Hk. unfold andThen. destruct (completion r); [| by split].
  destruct (polite_narrows _ _ _ Hn Hk) as [Hn' Hsent'].
  split; simpl; [done | by apply Forall_app].
Qed.

Lemma polite_forEach {A} (f : A → Server → Result) l s :
  (∀ x s', polite s' (f x s')) → polite s (forEach f l s).
Proof.
  intros Hf. revert s. induction l as [| x l IH]; intros s; [apply polite_ret |].
  rewrite forEach_cons. apply polite_andThen; [apply Hf | apply IH].
Qed.

Lemma polite_broadcast g m e s : polite s (broadcastToGroup g m e s).
Proof.
  split; [rewrite broadcastToGroup_state; apply narrows_refl |].
  apply Forall_forall. intros [c m'] Hin. by apply broadcast_sent in Hin as (_ & _ & ? & _).
Qed.

Lemma polite_heartbeat c now s : polite s (handleHeartbeat c now s).
Proof.
  unfold handleHeartbeat.
  destruct (jmap_get c (clients s)) as [client |] eqn:Hc; [| apply polite_ret].
  case_decide as Hopen; [| apply polite_ret]. split; simpl.
  - by apply (narrows_set_client _ client).
  - repeat constructor. by exists client.
Qed.

Lemma polite_join c g now s : polite s (handleJoinGroup c g now s).
Proof.
  unfold handleJoinGroup.
  destruct (jmap_get c (clients s)) as [client |] eqn:Hc; [| apply polite_ret].
  set (group' := Group.mk _ _ _ _ _). set (client' := Client.mk _ _ _).
  assert (narrows s (mkServer (jmap_set g group' (groups s))
                       (jmap_set c client' (clients s)))) as Hn.
  { intros c0 client0. simpl. rewrite jmap_get_set.
    case_decide; [intros [= <-]; subst; eauto | eauto]. }
  apply polite_andThen; [| apply polite_broadcast].
  split; [done |]. simpl. apply Forall_app. split; apply Forall_forall;
    intros e [-> Hopen]%send_elem; by exists client.
Qed.

Lemma polite_leave c g s : polite s (handleLeaveGroup c g s).
Proof.
  unfold handleLeaveGroup.
  destruct (jmap_get c (clients s)) as [client |] eqn:Hc; [| apply polite_ret].
  destruct (jmap_get g (groups s)) as [group |] eqn:Hg; [| apply polite_ret].
  set (group' := Group.mk _ _ _ _ _). set (client' := Client.mk _ _ _).
  assert (narrows s (mkServer (jmap_set g group' (groups s))
                       (jmap_set c client' (clients s)))) as Hn.
  { intros c0 client0. simpl. rewrite jmap_get_set.
    case_decide; [intros [= <-]; subst; eauto | eauto]. }
  apply polite_andThen.
  - eapply polite_narrows; [exact Hn | apply polite_broadcast].
  - case_decide; [| apply polite_ret].
    split; [by apply narrows_same_clients | constructor].
Qed.

Lemma polite_disconnect c s : polite s (handleClientDisconnect c s).
Proof.
  unfold handleClientDisconnect.
  destruct (jmap_get c (clients s)) as [client |]; [| apply polite_ret].
  apply polite_andThen.
  - apply polite_forEach. intros g s'. apply polite_leave.
  - split; [apply narrows_delete_client | constructor].
Qed.

Lemma polite_shareInto c d now g s : polite s (shareInto c d now g s).
Proof.
  unfold shareInto.
  destruct (jmap_get g (groups s)) as [group |]; [| apply polite_ret].
  set (s' := mkServer _ _).
  apply (polite_narrows s s'); [by apply narrows_same_clients |].
  apply polite_andThen; [apply polite_andThen; apply polite_broadcast |].
  destruct d; [apply polite_ret | split; [apply narrows_refl | constructor] ].
Qed.

Lemma polite_share c d now s : polite s (handleShareTab c d now s).
Proof.
  unfold handleShareTab.
  destruct (jmap_get c (clients s)) as [client |]; [| apply polite_ret].
  apply polite_forEach. intros g s'. apply polite_shareInto.
Qed.

Lemma polite_annotation c d now s : polite s (handleAnnotation c d now s).
Proof.
  unfold handleAnnotation.
  destruct (jmap_get c (clients s)) as [client |]; [| apply polite_ret].
  apply polite_forEach. intros g s'.
  destruct (jmap_get g (groups s')) as [group |]; [| apply polite_ret].
  set (s1 := mkServer _ _).
  apply (polite_narrows s' s1); [by apply narrows_same_clients |].
  apply polite_broadcast.
Qed.

Lemma polite_clusterUpdate c d s : polite s (handleClusterUpdate c d s).
Proof.
  unfold handleClusterUpdate.
  destruct (jmap_get c (clients s)) as [client |]; [| apply polite_ret].
  apply polite_forEach. intros g s'. apply polite_broadcast.
Qed.

Lemma polite_message c m now s : polite s (handleMessage c m now s).
Proof.
  unfold handleMessage.
  destruct (jmap_get c (clients s)) as [client |] eqn:Hc; [| apply polite_ret].
  set (s' := mkServer _ _).
  apply (polite_narrows s s'); [by apply (narrows_set_client _ client) |].
  destruct m.
  - apply polite_heartbeat.
  - apply polite_join.
  - apply polite_leave.
  - apply polite_share.
  - apply polite_annotation.
  - apply polite_clusterUpdate.
  - apply polite_ret.
Qed.

Lemma polite_cleanup now s : polite s (cleanup now s).
Proof.
  unfold cleanup. apply polite_andThen.
  - unfold removeInactiveClients. apply polite_forEach. intros c s'.
    destruct (jmap_get c (clients s')) as [client |]; [| apply polite_ret].
    case_decide; [apply polite_disconnect | apply polite_ret].
  - split; [by apply narrows_same_clients | constructor].
Qed.

(** X3. A broadcast writes to a connection exactly when it is a member of
    the group, is registered with an open socket, and is not the
    excluded one; what it writes is the message it was given. *)
Theorem broadcast_recipients (g : string) (m : Outbound) (e : option string)
    (s : Server) (c : string) (m' : Outbound) :
  (c, m') ∈ sent (broadcastToGroup g m e s)
  ↔ m' = m ∧ member c g s ∧ reachable c s ∧ e ≠ Some c.
Proof. apply broadcast_sent. Qed.

(** X4. Whatever reaches the server, every envelope it writes in answer
    goes to a connection that was registered, with an open socket, when
    the event came in; a closed socket is never written to, and no
    event registers a connection. *)
Theorem writes_only_to_open_sockets (e : Event) (s : Server) (c : string)
    (m : Outbound) :
  (c, m) ∈ sent (step e s) → reachable c s.
Proof.
  assert (polite s (step e s)) as [_ Hsent].
  { destruct e; simpl.
    - apply polite_join.
    - apply polite_leave.
    - apply polite_disconnect.
    - apply polite_message.
    - apply polite_cleanup. }
  intros Hin. rewrite Forall_forall in Hsent. by apply Hsent in Hin.
Qed.

Lemma writes_only_to_open_sockets_witness :
  ("a", group_joined "g" 1) ∈ sent (step (Join "a" "g" 1) twoClients)
  ∧ reachable "a" twoClients.
Proof.
  assert (("a", group_joined "g" 1) ∈ sent (step (Join "a" "g" 1) twoClients))
    as Hin by (vm_compute; left).
  split; [exact Hin |].
  exact (writes_only_to_open_sockets _ twoClients "a" _ Hin).
Defined.

(** *** What a handler writes, round by round *)

Lemma andThen_sent r k e :
  e ∈ sent (r >>> k) → e ∈ sent r ∨ e ∈ sent (k (state r)).
Proof.
  unfold andThen. destruct (completion r); [| by left].
  simpl. by rewrite elem_of_app.
Qed.

Lemma andThen_sent_l r k e : e ∈ sent r → e ∈ sent (r >>> k).
Proof.
  unfold andThen. destruct (completion r); [| done].
  simpl. rewrite elem_of_app. by left.
Qed.


(** An envelope a loop wrote was written by one of its rounds, in a
    state the rounds before it had left. *)
Lemma forEach_sent_from {A} (P : Server → Prop) (f : A → Server → Result) l s e :
  P s → (∀ x, preserves P (f x)) →
  e ∈ sent (forEach f l s) → ∃ x s', x ∈ l ∧ P s' ∧ e ∈ sent (f x s').
Proof.
  intros Hs Hf. revert s Hs. induction l as [| x l IH]; intros s Hs.
  - by intros ?%elem_of_nil.
  - rewrite forEach_cons. intros [Hin | Hin]%andThen_sent.
    + exists x, s. split; [left | done].
    + destruct (IH (state (f x s))) as (y & s' & Hy & Hs' & He);
        [by apply Hf | done |].
      exists y, s'. split; [by right | done].
Qed.


(** *** Sharing a tab *)





(** *** Annotations and cluster updates *)

Lemma annotation_round_logs c d now g0 g s :
  let s' :=
    state (match jmap_get g0 (groups s) with
           | None => ret s
           | Some group =>
               broadcastToGroup g0 (annotation_update d c) (Some c)
                 (mkServer
                    (jmap_set g0
                       (Group.mk (Group.id group) (Group.members group)
                          (Group.sharedTabs group)
                          (Group.annotations group ++ [mkAnnotation d c now])
                          (Group.created group)) (groups s)) (clients s))
           end) in
  annotationsOf g s `prefix_of` annotationsOf g s' ∧ history g s' = history g s.
Proof.
  simpl. destruct (jmap_get g0 (groups s)) as [group |] eqn:Hg0; [| done].
  rewrite broadcastToGroup_state. unfold annotationsOf, history. simpl.
  rewrite jmap_get_set. case_decide as Heq; [| done].
  subst g0. rewrite Hg0. simpl. split; [by apply prefix_app_r | done].
Qed.

(** X6. An annotation is added at the end of the log of the groups of its
    sender: the log a group had is a prefix of the one it has
    afterwards, and no history of shared tabs changes. The sender is
    never among those the annotation is relayed to. *)
Theorem annotation_log_only_grows (c : string) (d : option string) (now : Z)
    (s : Server) (g : string) :
  annotationsOf g s `prefix_of` annotationsOf g (state (handleAnnotation c d now s))
  ∧ history g (state (handleAnnotation c d now s)) = history g s
  ∧ ∀ m, (c, m) ∉ sent (handleAnnotation c d now s).
Proof.
  unfold handleAnnotation.
  destruct (jmap_get c (clients s)) as [client |];
    [| split_and!; [done | done | intros m; apply not_elem_of_nil] ].
  split_and!.
  - apply (forEach_preserves (λ s', annotationsOf g s `prefix_of` annotationsOf g s'));
      [| done].
    intros g0 _ s' Hs'.
    destruct (annotation_round_logs c d now g0 g s') as [Hp _].
    by etrans.
  - apply (forEach_preserves (λ s', history g s' = history g s)); [| done].
    intros g0 _ s' Hs'.
    destruct (annotation_round_logs c d now g0 g s') as [_ Hh]. congruence.
  - intros m Hin.
    apply (forEach_sent_from (λ _, True)) in Hin as (g0 & s' & _ & _ & Hin);
      [| done | done].
    destruct (jmap_get g0 (groups s')); [| by apply elem_of_nil in Hin].
    apply broadcast_sent in Hin as (_ & _ & _ & Hne). done.
Qed.

(** X7. A cluster update is relayed and nothing else: the registries are
    as they were, and every envelope written is the update, marked
    with its sender, to another connection that is in a group the
    sender has joined. *)
Theorem cluster_update_is_only_relayed (c : string) (d : option string)
    (s : Server) :
  state (handleClusterUpdate c d s) = s
  ∧ ∀ c' m, (c', m) ∈ sent (handleClusterUpdate c d s) →
      m = ai_cluster_update d c ∧ c' ≠ c
      ∧ ∃ g, joined c g s ∧ member c' g s.
Proof.
  split; [apply clusterUpdate_state |].
  intros c' m. unfold handleClusterUpdate.
  destruct (jmap_get c (clients s)) as [client |] eqn:Hc;
    [| by intros ?%elem_of_nil].
  intros Hin.
  apply (forEach_sent_from (λ s', s' = s)) in Hin as (g & s' & Hg & -> & Hin);
    [| done | by intros g s' ->; apply broadcastToGroup_state].
  apply broadcast_sent in Hin as (-> & Hm & _ & Hne).
  split; [done |]. split; [congruence |].
  exists g. split; [by exists client | done].
Qed.

(** *** Joining *)

(** X8. A connection with an open socket that joins a group is sent the
    history of shared tabs and the annotation log the group has, both
    empty for a group the join creates; and a join changes no history
    and no annotation log. *)
Theorem join_sends_the_stored_history (c g : string) (now : Z) (s : Server)
    (client : Client.t) :
  jmap_get c (clients s) = Some client → Client.ws client = OPEN →
  (c, group_data (history g s) (annotationsOf g s))
    ∈ sent (handleJoinGroup c g now s)
  ∧ ∀ g', history g' (state (handleJoinGroup c g now s)) = history g' s
          ∧ annotationsOf g' (state (handleJoinGroup c g now s))
            = annotationsOf g' s.
Proof.
  intros Hc Hopen. split.
  - unfold handleJoinGroup. rewrite Hc. apply andThen_sent_l. simpl.
    apply elem_of_app. right. apply send_elem. split; [| done].
    unfold history, annotationsOf. by destruct (jmap_get g (groups s)).
  - intros g'. rewrite (handleJoinGroup_state _ _ _ _ _ Hc).
    unfold history, annotationsOf. simpl. rewrite jmap_get_set.
    case_decide as Heq; [| done]. subst g'.
    by destruct (jmap_get g (groups s)).
Qed.

Lemma join_sends_the_stored_history_witness :
  ("b", group_data [sampleTab] [])
    ∈ sent (handleJoinGroup "b" "g" 9 oneGroupAndNewcomer).
Proof.
  exact (proj1 (join_sends_the_stored_history "b" "g" 9 oneGroupAndNewcomer
                  (Client.mk OPEN [] 0) eq_refl eq_refl)).
Defined.

(** *** More on the containers *)

Section ordered_more.
Context {K : Type} `{EqDecision K} {V : Type}.
Implicit Types m : list (K * V).

Lemma filter_agree {A} (P Q : A → Prop) `{∀ x, Decision (P x)}
    `{∀ x, Decision (Q x)} (l : list A) :
  (∀ x, x ∈ l → P x ↔ Q x) → filter P l = filter Q l.
Proof.
  induction l as [| x l IH]; intros Hl; [done |].
  rewrite !filter_cons.
  assert (P x ↔ Q x) as Hx by (apply Hl; left).
  rewrite IH by (intros y Hy; apply Hl; by right).
  destruct (decide (P x)), (decide (Q x)); tauto.
Qed.

Lemma jmap_set_set k v v' m : jmap_set k v (jmap_set k v' m) = jmap_set k v m.
Proof.
  induction m as [| [k' v0] m IH]; simpl.
  - by rewrite decide_True.
  - case_decide; simpl; [by rewrite decide_True | rewrite decide_False by done].
    by rewrite IH.
Qed.

Lemma jmap_delete_set k v m : jmap_delete k (jmap_set k v m) = jmap_delete k m.
Proof.
  unfold jmap_delete. induction m as [| [k' v0] m IH]; simpl.
  - by rewrite filter_cons_False by (simpl; tauto).
  - case_decide as Hk.
    + subst k'. by rewrite !filter_cons_False by (simpl; tauto).
    + rewrite !filter_cons_True by (simpl; congruence). by rewrite IH.
Qed.

Lemma jmap_delete_absent k m : jmap_get k m = None → jmap_delete k m = m.
Proof.
  intros Hk. apply filter_all, Forall_forall. intros [k' v] Hin. simpl.
  intros ->. apply jmap_get_None_keys in Hk. apply Hk.
  apply list_elem_of_fmap. by exists (k, v).
Qed.

Lemma jset_delete_add (x : K) (l : list K) : x ∉ l → jset_delete x (jset_add x l) = l.
Proof.
  intros Hx. unfold jset_add, jset_delete. rewrite decide_False by done.
  rewrite filter_app, filter_cons_False, filter_nil, app_nil_r by tauto.
  apply filter_all, Forall_forall. intros y Hy ->. done.
Qed.
End ordered_more.

(** *** Leaving and being removed *)

(** X9. After a disconnect on symmetric registries the connection is not
    registered and is in the member set of no group, and the
    memberships of every other connection are what they were. *)
Theorem disconnect_forgets_the_connection (c : string) (s : Server) :
  symmetric s →
  jmap_get c (clients (state (handleClientDisconnect c s))) = None
  ∧ (∀ g, ¬ member c g (state (handleClientDisconnect c s)))
  ∧ ∀ c' g, c' ≠ c →
      (member c' g (state (handleClientDisconnect c s)) ↔ member c' g s)
      ∧ (joined c' g (state (handleClientDisconnect c s)) ↔ joined c' g s).
Proof.
  intros Hs. destruct (jmap_get c (clients s)) as [client |] eqn:Hc.
  - split_and!.
    + rewrite (handleClientDisconnect_state _ _ _ Hc). simpl.
      apply jmap_get_delete_eq.
    + intros g Hm. apply (disconnect_symmetric c s Hs) in Hm.
      apply (joined_disconnect _ _ _ _ _ Hc) in Hm as [_ Hne]. done.
    + intros c' g Hne.
      rewrite (member_disconnect _ _ _ _ _ Hc), (joined_disconnect _ _ _ _ _ Hc).
      tauto.
  - rewrite handleClientDisconnect_unknown by done. split_and!; [done | | done].
    intros g Hm. apply Hs in Hm as (client & Hcl & _). congruence.
Qed.

Lemma oneGroup_symmetric : symmetric oneGroup.
Proof.
  intros c g. unfold member, joined. simpl. split.
  - intros (group & Hg & Hin). case_decide; [| done]. injection Hg as <-.
    simpl in Hin. apply list_elem_of_singleton in Hin as ->. subst.
    rewrite decide_True by done. eexists. split; [done | left].
  - intros (client & Hc & Hin). case_decide; [| done]. injection Hc as <-.
    simpl in Hin. apply list_elem_of_singleton in Hin as ->. subst.
    rewrite decide_True by done. eexists. split; [done | left].
Qed.

Lemma disconnect_forgets_the_connection_witness :
  symmetric oneGroup
  ∧ jmap_get "a" (clients (state (handleClientDisconnect "a" oneGroup))) = None
  ∧ ∀ g, ¬ member "a" g (state (handleClientDisconnect "a" oneGroup)).
Proof.
  split; [exact oneGroup_symmetric |].
  destruct (disconnect_forgets_the_connection "a" oneGroup oneGroup_symmetric)
    as (H1 & H2 & _).
  by split.
Defined.

Lemma leave_clients_delete c g s :
  jmap_delete c (clients (state (handleLeaveGroup c g s))) = jmap_delete c (clients s).
Proof.
  destruct (handleLeaveGroup_cases c g s)
    as [[Hk (client & group & Hc & Hg)] | [Hk ->]]; [| done].
  rewrite (handleLeaveGroup_state _ _ _ _ _ Hc Hg). simpl.
  apply jmap_delete_set.
Qed.

Lemma disconnect_clients c s :
  clients (state (handleClientDisconnect c s)) = jmap_delete c (clients s).
Proof.
  destruct (jmap_get c (clients s)) as [client |] eqn:Hc.
  - rewrite (handleClientDisconnect_state _ _ _ Hc). simpl.
    generalize (Client.groups client). intros l. clear Hc. revert s.
    induction l as [| g l IH]; intros s; [done |].
    simpl. by rewrite IH, leave_clients_delete.
  - rewrite handleClientDisconnect_unknown by done. simpl.
    by rewrite jmap_delete_absent.
Qed.

Lemma removeInactiveClients_clients now l s :
  NoDup (jmap_keys (clients s)) →
  let round := λ c s,
    match jmap_get c (clients s) with
    | Some client =>
        if decide (timeout < now - Client.lastSeen client)%Z
        then handleClientDisconnect c s else ret s
    | None => ret s
    end in
  clients (state (forEach round l s))
  = filter (λ e, ¬ (e.1 ∈ l ∧ stale now e.2)) (clients s).
Proof.
  intros Hnd round. revert s Hnd. induction l as [| k l IH]; intros s Hnd.
  - simpl. symmetry. apply filter_all, Forall_forall.
    intros e _ [Hin _]. by apply elem_of_nil in Hin.
  - rewrite forEach_cons.
    assert (completion (round k s) = Returned) as Hco.
    { unfold round. destruct (jmap_get k (clients s)); [| done].
      case_decide; [apply handleClientDisconnect_completion | done]. }
    rewrite andThen_returned by done. unfold round at 2.
    destruct (jmap_get k (clients s)) as [client |] eqn:Hk.
    + case_decide as Hstale.
      * rewrite IH by (rewrite disconnect_clients; by apply jmap_filter_NoDup).
        rewrite disconnect_clients. unfold jmap_delete.
        rewrite list_filter_filter. apply filter_agree.
        intros [k' client'] Hin. simpl. rewrite elem_of_cons.
        destruct (decide (k' = k)) as [-> | Hne]; [| intuition congruence].
        apply (jmap_elem_get _ _ _ Hnd) in Hin.
        assert (client' = client) as -> by congruence.
        unfold stale. tauto.
      * simpl. rewrite IH by done. apply filter_agree.
        intros [k' client'] Hin. simpl. rewrite elem_of_cons.
        destruct (decide (k' = k)) as [-> | Hne]; [| intuition congruence].
        apply (jmap_elem_get _ _ _ Hnd) in Hin.
        assert (client' = client) as -> by congruence.
        unfold stale. tauto.
    + simpl. rewrite IH by done. apply filter_agree.
      intros [k' client'] Hin. simpl. rewrite elem_of_cons.
      destruct (decide (k' = k)) as [-> | Hne]; [| intuition congruence].
      apply jmap_get_None_keys in Hk. exfalso. apply Hk.
      apply list_elem_of_fmap. by exists (k, client').
Qed.

(** X10. One run of the cleanup removes exactly the connections that have
    been silent for more than five minutes: the connections left are
    the others, in their order, each with the record it had. *)
Theorem cleanup_removes_exactly_the_silent (now : Z) (s : Server) :
  NoDup (jmap_keys (clients s)) →
  clients (state (cleanup now s)) = filter (λ e, ¬ stale now e.2) (clients s).
Proof.
  intros Hnd. unfold cleanup.
  assert (completion (removeInactiveClients now s) = Returned) as Hco.
  { unfold removeInactiveClients.
    apply (forEach_returned _ (jmap_keys (clients s)) s).
    intros c s'. destruct (jmap_get c (clients s')); [| done].
    case_decide; [apply handleClientDisconnect_completion | done]. }
  rewrite andThen_returned by done. simpl.
  unfold removeInactiveClients.
  rewrite (removeInactiveClients_clients now _ s Hnd).
  apply filter_agree. intros [k client] Hin. simpl.
  assert (k ∈ jmap_keys (clients s)) as Hk.
  { apply list_elem_of_fmap. by exists (k, client). }
  tauto.
Qed.

Lemma cleanup_removes_exactly_the_silent_witness :
  NoDup (jmap_keys (clients twoClients))
  ∧ clients (state (cleanup 700000 twoClients))
    = filter (λ e, ¬ stale 700000 e.2) (clients twoClients).
Proof.
  assert (NoDup (jmap_keys (clients twoClients))) as Hnd.
  { unfold jmap_keys. simpl. apply NoDup_cons. split.
    - rewrite list_elem_of_singleton. done.
    - apply NoDup_singleton. }
  split; [exact Hnd |].
  exact (cleanup_removes_exactly_the_silent 700000 twoClients Hnd).
Defined.

(** *** A new connection *)

(** X11. A connection under an identifier that is not in use leaves
    consistent registries consistent; it has joined no group and is
    sent [welcome] when its socket is open, and nothing otherwise. *)
Theorem new_connection_keeps_consistency (c : string) (ws : ReadyState)
    (now : Z) (s : Server) :
  jmap_get c (clients s) = None → consistent s →
  consistent (state (handleConnection c ws now s))
  ∧ (∀ g, ¬ joined c g (state (handleConnection c ws now s)))
  ∧ sent (handleConnection c ws now s)
    = if decide (ws = OPEN) then [(c, welcome c)] else [].
Proof.
  intros Hc Hs. split_and!.
  - by apply connection_consistent.
  - intros g (client & Hcl & Hin). simpl in Hcl.
    rewrite jmap_get_set_eq in Hcl. injection Hcl as <-.
    by apply elem_of_nil in Hin.
  - done.
Qed.

Lemma new_connection_keeps_consistency_witness :
  consistent (state (handleConnection "z" OPEN 3 twoClients))
  ∧ sent (handleConnection "z" OPEN 3 twoClients) = [("z", welcome "z")].
Proof.
  destruct (new_connection_keeps_consistency "z" OPEN 3 twoClients eq_refl
              twoClients_consistent) as (H1 & _ & H3).
  by split.
Defined.

(** *** Joining and leaving again *)

(** X12. A join followed by the leave of the same group puts the
    registries back as they were, when the connection was not in the
    group (on either side) and the group, if it existed, had a
    member: a group the join created is removed again, and a group
    that existed keeps its history, its log and the time it was
    created. *)
Theorem join_then_leave_restores (c g : string) (now : Z) (s : Server)
    (client : Client.t) :
  jmap_get c (clients s) = Some client →
  g ∉ Client.groups client →
  (∀ group, jmap_get g (groups s) = Some group →
     (c ∉ Group.members group) ∧ (Group.members group ≠ [])) →
  state (handleLeaveGroup c g (state (handleJoinGroup c g now s))) = s.
Proof.
  intros Hc Hj Hg. rewrite (handleJoinGroup_state _ _ _ _ _ Hc).
  erewrite handleLeaveGroup_state;
    [| simpl; apply jmap_get_set_eq | simpl; apply jmap_get_set_eq].
  cbn [groups clients Group.members Client.groups Client.ws Client.lastSeen
       joinedGroup leftGroup Group.id Group.sharedTabs Group.annotations
       Group.created].
  rewrite !jmap_set_set, jmap_delete_set, (jset_delete_add g) by done.
  rewrite (jmap_set_id c) by (by destruct client).
  destruct s as [gs cs]. cbn [groups clients] in *. f_equal.
  destruct (jmap_get g gs) as [group |] eqn:Hgr; cbn [default Group.members].
  - destruct (Hg group eq_refl) as [Hni Hne].
    rewrite jset_delete_add by done.
    rewrite decide_False by (by intros ?%nil_length_inv).
    apply jmap_set_id. rewrite Hgr. f_equal.
    unfold leftGroup, joinedGroup. simpl.
    rewrite jset_delete_add by done. by destruct group.
  - rewrite jset_delete_add by apply not_elem_of_nil.
    rewrite decide_True by done. by apply jmap_delete_absent.
Qed.

Lemma join_then_leave_restores_witness :
  state (handleLeaveGroup "b" "g"
           (state (handleJoinGroup "b" "g" 9 oneGroupAndNewcomer)))
  = oneGroupAndNewcomer.
Proof.
  apply (join_then_leave_restores "b" "g" 9 oneGroupAndNewcomer
           (Client.mk OPEN [] 0) eq_refl).
  - apply not_elem_of_nil.
  - intros group [= <-]. simpl. split; [| done].
    rewrite list_elem_of_singleton. done.
Defined.

(** *** Who hears of a leave *)

(** X23. A leave of a known connection from a known group is told to the
    other members of the group whose socket is open, and to nobody
    else, with the number of members that are left; any other leave is
    told to nobody. *)
Theorem leave_is_told_to_the_others (c g : string) (s : Server) (c' : string)
    (m : Outbound) :
  (c', m) ∈ sent (handleLeaveGroup c g s)
  ↔ ∃ client group,
      jmap_get c (clients s) = Some client
      ∧ jmap_get g (groups s) = Some group
      ∧ m = member_left c (length (jset_delete c (Group.members group)))
      ∧ c' ≠ c ∧ c' ∈ Group.members group ∧ reachable c' s.
Proof.
  unfold handleLeaveGroup.
  destruct (jmap_get c (clients s)) as [client |] eqn:Hc;
    [| split; [by intros ?%elem_of_nil | by intros (? & ? & [=] & _)] ].
  destruct (jmap_get g (groups s)) as [group |] eqn:Hg;
    [| split; [by intros ?%elem_of_nil | by intros (? & ? & _ & [=] & _)] ].
  cbn zeta. cbn [Group.members].
  set (n := length (jset_delete c (Group.members group))).
  set (s' := mkServer _ _).
  assert ((c', m) ∈ sent (broadcastToGroup g (member_left c n) (Some c) s' >>>
            (λ s1, if decide (n = 0)
                   then ret (mkServer (jmap_delete g (groups s1)) (clients s1))
                   else ret s1))
          ↔ (c', m) ∈ sent (broadcastToGroup g (member_left c n) (Some c) s'))
    as ->.
  { split; [| apply andThen_sent_l].
    intros [Hin | Hin]%andThen_sent; [done |].
    case_decide; by apply elem_of_nil in Hin. }
  rewrite broadcast_sent.
  unfold member, reachable, s'. cbn [groups clients].
  rewrite jmap_get_set_eq, jmap_get_set.
  split.
  - intros (-> & (gr & [= <-] & Hin) & (cl & Hcl & Hopen) & Hne).
    cbn [Group.members] in Hin. apply jset_delete_elem in Hin as [Hin Hne'].
    assert (c' ≠ c) as Hne'' by congruence.
    rewrite decide_False in Hcl by congruence.
    exists client, group. split_and!; eauto.
  - intros (cl & gr & [= <-] & [= <-] & -> & Hne & Hin & (cl' & Hcl' & Hopen)).
    split_and!; [done | | | congruence].
    + eexists. split; [done |]. cbn [Group.members]. by apply jset_delete_elem.
    + exists cl'. by rewrite decide_False by congruence.
Qed.

(** *** The cleanup and the disconnect *)

Lemma andThen_idle r k : k (state r) = ret (state r) → r >>> k = r.
Proof.
  intros Hk. unfold andThen. destruct r as [s out []]; simpl in *; [| done].
  rewrite Hk. simpl. by rewrite app_nil_r.
Qed.

Lemma removeInactiveClients_idle now l s :
  (∀ k client, jmap_get k (clients s) = Some client → ¬ stale now client) →
  forEach (λ clientId s,
    match jmap_get clientId (clients s) with
    | Some client =>
        if decide (timeout < now - Client.lastSeen client)%Z
        then handleClientDisconnect clientId s else ret s
    | None => ret s
    end) l s = ret s.
Proof.
  intros Hs. induction l as [| k l IH]; [done |].
  rewrite forEach_cons.
  destruct (jmap_get k (clients s)) as [client |] eqn:Hk.
  - rewrite decide_False by apply (Hs k client Hk). by rewrite ret_andThen.
  - by rewrite ret_andThen.
Qed.

Lemma removeInactiveClients_one now c client l s :
  jmap_get c (clients s) = Some client → stale now client →
  (∀ k cl, k ≠ c → jmap_get k (clients s) = Some cl → ¬ stale now cl) →
  c ∈ l →
  forEach (λ clientId s,
    match jmap_get clientId (clients s) with
    | Some client =>
        if decide (timeout < now - Client.lastSeen client)%Z
        then handleClientDisconnect clientId s else ret s
    | None => ret s
    end) l s = handleClientDisconnect c s.
Proof.
  intros Hc Hstale Hs. induction l as [| k l IH]; intros Hin.
  - by apply elem_of_nil in Hin.
  - rewrite forEach_cons. destruct (decide (k = c)) as [-> | Hne].
    + rewrite Hc, decide_True by done.
      apply andThen_idle, removeInactiveClients_idle.
      intros k cl. rewrite disconnect_clients, jmap_get_delete.
      case_decide as Hk; [done |]. intros Hcl. apply (Hs k cl); [congruence | done].
    + apply elem_of_cons in Hin as [-> | Hin]; [done |].
      destruct (jmap_get k (clients s)) as [cl |] eqn:Hk.
      * rewrite decide_False by apply (Hs k cl Hne Hk).
        rewrite ret_andThen. by apply IH.
      * rewrite ret_andThen. by apply IH.
Qed.

(** X24. When one connection only has been silent for more than five
    minutes, a run of the cleanup is the disconnect of that connection:
    the registries it leaves and the envelopes it writes are those of
    [handleClientDisconnect]. *)
Theorem sweep_of_one_silent_is_its_disconnect (now : Z) (c : string)
    (client : Client.t) (s : Server) :
  wellFormed s → populated s →
  jmap_get c (clients s) = Some client → stale now client →
  (∀ k cl, k ≠ c → jmap_get k (clients s) = Some cl → ¬ stale now cl) →
  cleanup now s = handleClientDisconnect c s.
Proof.
  intros Hw Hp Hc Hstale Hs. unfold cleanup, removeInactiveClients.
  rewrite (removeInactiveClients_one now c client) by eauto using jmap_get_Some_keys.
  apply andThen_idle.
  change (ret (state (removeOldEmptyGroups now (state (handleClientDisconnect c s))))
          = ret (state (handleClientDisconnect c s))).
  f_equal. apply removeOldEmptyGroups_idle;
    [by apply disconnect_wellFormed | by apply disconnect_populated].
Qed.

Lemma sweep_of_one_silent_is_its_disconnect_witness :
  cleanup 700000 silentAndAwake = handleClientDisconnect "a" silentAndAwake.
Proof.
  apply (sweep_of_one_silent_is_its_disconnect 700000 "a" (Client.mk OPEN ["g"] 0)).
  - split; unfold jmap_keys; simpl.
    + apply NoDup_singleton.
    + apply NoDup_cons. split; [by rewrite list_elem_of_singleton |].
      apply NoDup_singleton.
  - intros g group Hg. unfold silentAndAwake in Hg. simpl in Hg.
    case_decide; [| done]. by injection Hg as <-.
  - reflexivity.
  - unfold stale, timeout. simpl. lia.
  - intros k cl Hne Hk. unfold silentAndAwake in Hk. simpl in Hk.
    case_decide; [congruence |]. case_decide; [| done].
    injection Hk as <-. unfold stale, timeout. simpl. lia.
Defined.

(** *** What a run of the cleanup does to the groups *)

(** The members of a group after the first pass of the cleanup over the
    identifiers [l]: those it had, but for the ones evicted. *)
Lemma removeInactiveClients_member now l s c' g' :
  symmetric s →
  let round := λ c s,
    match jmap_get c (clients s) with
    | Some client =>
        if decide (timeout < now - Client.lastSeen client)%Z
        then handleClientDisconnect c s else ret s
    | None => ret s
    end in
  member c' g' (state (forEach round l s))
  ↔ member c' g' s
    ∧ ¬ (c' ∈ l ∧ ∃ client, jmap_get c' (clients s) = Some client
                            ∧ stale now client).
Proof.
  intros Hsym round. revert s Hsym. induction l as [| k l IH]; intros s Hsym.
  - simpl. split; [| tauto].
    intros Hm. split; [done |]. by intros [?%elem_of_nil _].
  - rewrite forEach_cons.
    assert (completion (round k s) = Returned) as Hco.
    { unfold round. destruct (jmap_get k (clients s)); [| done].
      case_decide; [apply handleClientDisconnect_completion | done]. }
    rewrite andThen_returned by done. unfold round at 2.
    destruct (jmap_get k (clients s)) as [client |] eqn:Hk.
    + case_decide as Hstale.
      * rewrite IH by (by apply disconnect_symmetric).
        rewrite (member_disconnect _ _ _ _ _ Hk), disconnect_clients.
        split.
        -- intros [[Hm Hne] Hno].
           assert (c' ≠ k) as Hck.
           { intros ->. apply Hne. split; [done |].
             apply Hsym in Hm as (cl & Hcl & Hin). congruence. }
           split; [done |].
           intros [[-> | Hin]%elem_of_cons (cl & Hcl & Hst)]; [done |].
           apply Hno. split; [done |]. exists cl.
           by rewrite jmap_get_delete_ne.
        -- intros [Hm Hno].
           assert (c' ≠ k) as Hck.
           { intros ->. apply Hno. split; [left |]. by exists client. }
           split; [split; [done | by intros [? _]] |].
           intros [Hin (cl & Hcl & Hst)].
           rewrite jmap_get_delete_ne in Hcl by done.
           apply Hno. split; [by right | eauto].
      * simpl. rewrite IH by done.
        split; intros [Hm Hno]; (split; [done |]).
        -- intros [[-> | Hin]%elem_of_cons (cl & Hcl & Hst)].
           ++ assert (cl = client) as -> by congruence. done.
           ++ apply Hno. eauto.
        -- intros [Hin Hst]. apply Hno. split; [by right | done].
    + simpl. rewrite IH by done.
      split; intros [Hm Hno]; (split; [done |]).
      * intros [[-> | Hin]%elem_of_cons (cl & Hcl & Hst)]; [congruence |].
        apply Hno. eauto.
      * intros [Hin Hst]. apply Hno. split; [by right | done].
Qed.

(** C2, amended. A leave that empties the member set of a group deletes
    the group at once, history included; a join of the same identifier
    afterwards, however soon, creates a new group with an empty history
    and annotation log. Nor does the cleanup defer anything: on a
    registry that is consistent and has no group without members, its
    pass over the groups that are empty and more than one hour old
    removes nothing, and a group is there after a run exactly when one
    of its members has not been silent for more than five minutes; a
    group whose members are all evicted by the run is deleted by it,
    whatever its age. *)
Theorem leave_emptying_group_deletes_it (c g : string) (s : Server)
    (client : Client.t) (group : Group.t) :
  jmap_get c (clients s) = Some client →
  jmap_get g (groups s) = Some group →
  jset_delete c (Group.members group) = [] →
  jmap_get g (groups (state (handleLeaveGroup c g s))) = None
  ∧ (∀ c' now,
       is_Some (jmap_get c' (clients (state (handleLeaveGroup c g s)))) →
       jmap_get g
         (groups (state (handleJoinGroup c' g now
                           (state (handleLeaveGroup c g s)))))
       = Some (Group.mk g [c'] [] [] now))
  ∧ (∀ now s0,
       consistent s0 → populated s0 →
       state (cleanup now s0) = state (removeInactiveClients now s0)
       ∧ ∀ g0,
           is_Some (jmap_get g0 (groups (state (cleanup now s0))))
           ↔ ∃ c0 client0,
               member c0 g0 s0 ∧ jmap_get c0 (clients s0) = Some client0
               ∧ ¬ stale now client0).
Proof.
  intros Hc Hg Hempty.
  assert (jmap_get g (groups (state (handleLeaveGroup c g s))) = None) as Hgone.
  { rewrite (handleLeaveGroup_state _ _ _ _ _ Hc Hg). simpl.
    rewrite Hempty. simpl. apply jmap_get_delete_eq. }
  split; [exact Hgone |]. split.
  - intros c' now [client' Hc'].
    rewrite (handleJoinGroup_state _ _ _ _ _ Hc'). simpl.
    by rewrite jmap_get_set_eq, Hgone.
  - intros now s0 [Hw Hsym] Hp.
    assert (completion (removeInactiveClients now s0) = Returned) as Hco.
    { unfold removeInactiveClients.
      apply (forEach_returned _ (jmap_keys (clients s0)) s0).
      intros k s'. destruct (jmap_get k (clients s')); [| done].
      case_decide; [apply handleClientDisconnect_completion | done]. }
    assert (wellFormed (state (removeInactiveClients now s0))
            ∧ populated (state (removeInactiveClients now s0))) as [Hw1 Hp1].
    { apply (removeInactiveClients_preserves (λ s, wellFormed s ∧ populated s));
        [| done].
      intros k s1 [Hw1 Hp1].
      split; [by apply disconnect_wellFormed | by apply disconnect_populated]. }
    assert (state (cleanup now s0) = state (removeInactiveClients now s0)) as Heq.
    { unfold cleanup. rewrite andThen_returned by done.
      by apply removeOldEmptyGroups_idle. }
    split; [exact Heq |]. intros g0. rewrite Heq. split.
    + intros [group0 Hg0].
      destruct (Group.members group0) as [| c0 ms] eqn:Hms;
        [by destruct (Hp1 g0 group0 Hg0) |].
      assert (member c0 g0 (state (removeInactiveClients now s0))) as Hm.
      { exists group0. split; [done |]. rewrite Hms. left. }
      unfold removeInactiveClients in Hm.
      apply removeInactiveClients_member in Hm as [Hm Hno]; [| done].
      destruct (proj1 (Hsym c0 g0) Hm) as (client0 & Hc0 & _).
      exists c0, client0. split_and!; [done | done |].
      intros Hst. apply Hno. split; [by eapply jmap_get_Some_keys | eauto].
    + intros (c0 & client0 & Hm & Hc0 & Hfresh).
      assert (member c0 g0 (state (removeInactiveClients now s0)))
        as (group0 & Hg0 & _); [| eauto].
      unfold removeInactiveClients.
      apply removeInactiveClients_member; [done |]. split; [done |].
      intros [_ (cl & Hcl & Hst)]. assert (cl = client0) as -> by congruence.
      done.
Qed.

Lemma oneGroup_populated : wellFormed oneGroup ∧ populated oneGroup.
Proof.
  split.
  - split; unfold jmap_keys; simpl; apply NoDup_singleton.
  - intros g group Hg. unfold oneGroup in Hg. simpl in Hg.
    case_decide; [| done]. by injection Hg as <-.
Qed.

Lemma leave_emptying_group_deletes_it_witness :
  jmap_get "g" (groups (state (handleLeaveGroup "a" "g" oneGroup))) = None
  ∧ jmap_get "g"
      (groups (state (handleJoinGroup "a" "g" 1000
                        (state (handleLeaveGroup "a" "g" oneGroup)))))
    = Some (Group.mk "g" ["a"] [] [] 1000)
  ∧ state (cleanup 400000 oneGroup)
    = state (removeInactiveClients 400000 oneGroup)
  ∧ (is_Some (jmap_get "g" (groups (state (cleanup 400000 oneGroup))))
     ↔ ∃ c0 client0,
         member c0 "g" oneGroup
         ∧ jmap_get c0 (clients oneGroup) = Some client0
         ∧ ¬ stale 400000 client0)
  ∧ jmap_get "g" (groups (state (cleanup 400000 oneGroup))) = None.
Proof.
  destruct (leave_emptying_group_deletes_it "a" "g" oneGroup
              (Client.mk OPEN ["g"] 0) (Group.mk "g" ["a"] [sampleTab] [] 0)
              eq_refl eq_refl eq_refl) as (H1 & H2 & H3).
  destruct (H3 400000%Z oneGroup
              (conj (proj1 oneGroup_populated) oneGroup_symmetric)
              (proj2 oneGroup_populated)) as [H4 H5].
  split; [exact H1 |].
  split; [apply H2; eexists; reflexivity |].
  split; [exact H4 |]. split; [exact (H5 "g") |]. reflexivity.
Defined.

End ServerProps.

(** ** The service worker *)

Module WorkerProps.
Import Worker.

(** *** Reconciliation of a relayed tab *)

(** What [handleSharedTab] does, case by case: a warning and the store
    untouched when a record of the same URL and group is more than a
    second away; nothing at all when a record of the same URL, of
    whatever group, is within a second; the record appended
    otherwise. *)
Lemma handleSharedTab_cases hostname tabData st :
  (∃ existingTab,
      existingTab ∈ sharedTabs st
      ∧ isDuplicateOf tabData existingTab = true
      ∧ handleSharedTab hostname tabData st
        = (st, [duplicate_tab_warning (url tabData) (title tabData)
                  (timestamp existingTab)]))
  ∨ (List.find (isDuplicateOf tabData) (sharedTabs st) = None
     ∧ existsb (isEchoOf tabData) (sharedTabs st) = true
     ∧ handleSharedTab hostname tabData st = (st, []))
  ∨ (List.find (isDuplicateOf tabData) (sharedTabs st) = None
     ∧ existsb (isEchoOf tabData) (sharedTabs st) = false
     ∧ sharedTabs (handleSharedTab hostname tabData st).1
       = sharedTabs st ++ [tabData]).
Proof.
  unfold handleSharedTab.
  destruct (List.find (isDuplicateOf tabData) (sharedTabs st)) as [e |] eqn:Hfind.
  - left. exists e. apply find_some in Hfind as [Hin Hdup].
    split; [by apply list_elem_of_In | done].
  - right. destruct (existsb (isEchoOf tabData) (sharedTabs st)) eqn:Hecho.
    + by left.
    + right. split; [done |]. split; [done |].
      by destruct (computeClusters hostname (sharedTabs st ++ [tabData])).
Qed.

(** A rejected or discarded record does not add to the count. *)
Lemma handleSharedTab_count hostname tabData st :
  length (sharedTabs (handleSharedTab hostname tabData st).1)
  = match List.find (isDuplicateOf tabData) (sharedTabs st) with
    | Some _ => length (sharedTabs st)
    | None =>
        if existsb (isEchoOf tabData) (sharedTabs st) then length (sharedTabs st)
        else S (length (sharedTabs st))
    end.
Proof.
  destruct (handleSharedTab_cases hostname tabData st)
    as [(e & Hin & Hdup & ->) | [(Hf & He & ->) | (Hf & He & ->)]].
  - destruct (List.find _ _) eqn:Hfind; [done |].
    apply list_elem_of_In in Hin.
    by rewrite (find_none _ _ Hfind e Hin) in Hdup.
  - by rewrite Hf, He.
  - rewrite Hf, He, length_app. simpl. lia.
Qed.

(** C3. The record kept locally is of group ["g1"]; the one that
    arrives has the same URL, is of group ["g2"], and is half a second
    younger. No record matches it on URL and group, and still it is
    discarded as an echo, without a notice. Four seconds later instead
    of half a second, the same record is appended. *)
Theorem echo_check_ignores_group (hostname : string → option string) :
  let kept := tabAt "https://docs.example.org/a" "g1" 1000 in
  let incoming := tabAt "https://docs.example.org/a" "g2" 1500 in
  let later := tabAt "https://docs.example.org/a" "g2" 5000 in
  List.filter
    (λ tab, bool_decide (url tab = url incoming)
            && bool_decide (groupId tab = groupId incoming)) [kept] = []
  ∧ handleSharedTab hostname incoming (mkStore [kept] [])
    = (mkStore [kept] [], [])
  ∧ sharedTabs (handleSharedTab hostname later (mkStore [kept] [])).1
    = [kept; later].
Proof. split; [reflexivity |]. split; reflexivity. Qed.

(** The same URL in the same group: an echo within a second, a duplicate
    with a notice after it. *)
Example echo_and_duplicate_in_one_group :
  handleSharedTab sampleHostname (tabAt "https://docs.example.org/a" "g1" 1800)
    (mkStore [tabA] [])
  = (mkStore [tabA] [], [])
  ∧ handleSharedTab sampleHostname (tabAt "https://docs.example.org/a" "g1" 2001)
      (mkStore [tabA] [])
    = (mkStore [tabA] [],
       [duplicate_tab_warning (Some "https://docs.example.org/a") None
          (Some 1000%Z)]).
Proof. split; reflexivity. Qed.

(** *** Answers of the classifier *)

Lemma handleTabsCategorized_clusters clusters st :
  handleTabsCategorized (mkResponse None (Some clusters)) st
  = (mkStore (sharedTabs st) clusters, [clusters_updated clusters]).
Proof. done. Qed.

Lemma updateAIClusters_response_clusters hostname e clusters st :
  updateAIClusters_response hostname (Some (mkResponse e (Some clusters))) st
  = (mkStore (sharedTabs st) clusters, [clusters_updated clusters]).
Proof. done. Qed.

(** C4, as stated, fails: the answer for the older tab set [[tabA]]
    arrives after the answer for [[tabA; tabB]] was published, and
    replaces it. *)
Lemma stale_answer_overwrites :
  let answerA := mkResponse None (Some [Cluster.mk (Some "Docs") [tabA] "reading"]) in
  let answerB :=
    mkResponse None (Some [Cluster.mk (Some "Mixed") [tabA; tabB] "all of it"]) in
  let st := mkStore [tabA; tabB] [] in
  aiClusters (arrivals sampleHostname [answerB] st)
    = [Cluster.mk (Some "Mixed") [tabA; tabB] "all of it"]
  ∧ aiClusters (arrivals sampleHostname [answerB; answerA] st)
    = [Cluster.mk (Some "Docs") [tabA] "reading"]
  ∧ aiClusters (arrivals sampleHostname [answerB; answerA] st)
    ≠ aiClusters (arrivals sampleHostname [answerB] st).
Proof. split; [reflexivity |]. split; [reflexivity |]. by vm_compute. Qed.

(** C4, amended. The published clusters are those of the answer that
    arrived last, whichever tab set it was computed for and whatever
    arrived before it: an answer for an older tab set that arrives after
    a newer result was published replaces it. *)
Theorem last_answer_wins (hostname : string → option string)
    (earlier : list Response) (e : option string) (clusters : list Cluster.t)
    (st : Store) :
  aiClusters (arrivals hostname (earlier ++ [mkResponse e (Some clusters)]) st)
  = clusters.
Proof. unfold arrivals. by rewrite foldl_app. Qed.

(** *** The fallback grouping *)

Section fallback.
Variable hostname : string → option string.

Lemma keyOf_not_inherited t : JsObject.inherited (keyOf hostname t) = false.
Proof.
  unfold keyOf. destruct (url t ≫= hostname) as [d |]; [| done].
  by destruct (JsObject.inherited d) eqn:Hd.
Qed.

Lemma jmap_get_not_inherited (o : list (string * list TabData)) k v :
  ownsNoInherited o → jmap_get k o = Some v → JsObject.inherited k = false.
Proof.
  intros Ho Hget. apply jmap_get_elem in Hget.
  unfold ownsNoInherited in Ho. rewrite Forall_forall in Ho.
  by apply Ho in Hget.
Qed.

Lemma addTab_pushTo (o : list (string * list TabData)) t :
  ownsNoInherited o → addTab hostname o t = pushTo (keyOf hostname t) t o.
Proof.
  intros Ho. unfold addTab, keyOf, pushTo.
  destruct (url t ≫= hostname) as [d |]; [| done].
  destruct (jmap_get d o) as [v |] eqn:Hget.
  - by rewrite (jmap_get_not_inherited o d v Ho Hget), Hget.
  - destruct (JsObject.inherited d); [done | by rewrite Hget].
Qed.

Lemma jmap_set_Forall {V} (P : string * V → Prop) k v (o : list (string * V)) :
  P (k, v) → Forall P o → Forall P (jmap_set k v o).
Proof.
  intros Hkv. induction 1 as [| [k' v'] o Hx Ho IH]; simpl.
  - by repeat constructor.
  - case_decide; constructor; done.
Qed.

Lemma pushTo_ownsNoInherited k t (o : list (string * list TabData)) :
  JsObject.inherited k = false → ownsNoInherited o →
  ownsNoInherited (pushTo k t o).
Proof. intros Hk Ho. by apply jmap_set_Forall. Qed.

Lemma pushTo_filedByKey t (o : list (string * list TabData)) :
  filedByKey hostname o → filedByKey hostname (pushTo (keyOf hostname t) t o).
Proof.
  intros Ho. apply jmap_set_Forall; [| done]. simpl. split.
  - intros Hnil. by apply app_eq_nil in Hnil as [_ [=]].
  - apply Forall_app. split; [| by repeat constructor].
    destruct (jmap_get (keyOf hostname t) o) as [v |] eqn:Hget; [| constructor].
    apply jmap_get_elem in Hget. unfold filedByKey in Ho.
    rewrite Forall_forall in Ho. by apply Ho in Hget as [_ Hv].
Qed.

Lemma pushTo_tabs k t (o : list (string * list TabData)) :
  concat (pushTo k t o).*2 ≡ₚ concat o.*2 ++ [t].
Proof.
  unfold pushTo. induction o as [| [k' v] o IH]; [done |].
  cbn [jmap_get jmap_set]. destruct (decide (k = k')) as [<- | Hne].
  - cbn. rewrite <- !app_assoc. apply Permutation_app_head, Permutation_app_comm.
  - cbn. rewrite IH. by rewrite app_assoc.
Qed.

Lemma pushTo_keys_NoDup k t (o : list (string * list TabData)) :
  NoDup (jmap_keys o) → NoDup (jmap_keys (pushTo k t o)).
Proof. apply jmap_set_NoDup. Qed.

(** The object [simpleGroupByDomain] has built after its loop. *)
Lemma domainGroups_built ts (o : list (string * list TabData)) :
  ownsNoInherited o → filedByKey hostname o → NoDup (jmap_keys o) →
  let o' := foldl (addTab hostname) o ts in
  ownsNoInherited o' ∧ filedByKey hostname o' ∧ NoDup (jmap_keys o')
  ∧ concat o'.*2 ≡ₚ concat o.*2 ++ ts.
Proof.
  revert o. induction ts as [| t ts IH]; intros o Hi Hf Hnd; simpl.
  - by rewrite app_nil_r.
  - rewrite addTab_pushTo by done.
    destruct (IH (pushTo (keyOf hostname t) t o)) as (Hi' & Hf' & Hnd' & Hp).
    + apply pushTo_ownsNoInherited; [apply keyOf_not_inherited | done].
    + by apply pushTo_filedByKey.
    + by apply pushTo_keys_NoDup.
    + split_and!; [done .. |].
      rewrite Hp, pushTo_tabs. by rewrite <- app_assoc.
Qed.

Lemma indexed_values {V} (o : list (string * V)) :
  (JsObject.indexed o).*2 = filter (λ e, ¬ JsObject.arrayIndex e.1 = None) o.
Proof.
  unfold JsObject.indexed. induction o as [| e o IH]; [done |].
  rewrite filter_cons. cbn [omap list_omap].
  destruct (JsObject.arrayIndex e.1) as [n |] eqn:Hn.
  - rewrite decide_True by done. cbn. by rewrite IH.
  - rewrite decide_False by tauto. done.
Qed.

Lemma entries_Permutation {V} (o : list (string * V)) : JsObject.entries o ≡ₚ o.
Proof.
  unfold JsObject.entries.
  rewrite merge_sort_Permutation, indexed_values.
  rewrite Permutation_app_comm. apply filter_app_complement.
Qed.

(** Whatever the tabs, the fallback grouping files every one of them
    exactly once, under distinct names, and under the name that is
    its host name unless the address did not parse or the host name
    is a key of [Object.prototype]; no cluster is empty. *)
Lemma simpleGroupByDomain_partition ts :
  concat (Cluster.tabs <$> simpleGroupByDomain hostname ts) ≡ₚ ts
  ∧ NoDup (Cluster.name <$> simpleGroupByDomain hostname ts)
  ∧ ∀ c, c ∈ simpleGroupByDomain hostname ts →
      Cluster.tabs c ≠ []
      ∧ ∀ t, t ∈ Cluster.tabs c →
          Cluster.name c = Some (keyOf hostname t)
          ∧ Cluster.theme c = "Content from " +:+ keyOf hostname t.
Proof.
  destruct (domainGroups_built ts []) as (_ & Hf & Hnd & Hp);
    [constructor | constructor | apply NoDup_nil_2 |].
  unfold simpleGroupByDomain.
  pose proof (entries_Permutation (foldl (addTab hostname) [] ts)) as He.
  split_and!.
  - rewrite <- list_fmap_compose.
    change (Cluster.tabs ∘ _) with (snd : string * list TabData → list TabData).
    by rewrite He, Hp.
  - rewrite <- list_fmap_compose.
    change (Cluster.name ∘ _) with (Some ∘ (fst : string * list TabData → string)).
    rewrite list_fmap_compose. apply (NoDup_fmap_2 _).
    unfold jmap_keys in Hnd. by rewrite He.
  - intros c (e & -> & Hin)%list_elem_of_fmap. rewrite He in Hin.
    unfold filedByKey in Hf. rewrite Forall_forall in Hf.
    apply Hf in Hin as [Hne Hkeys]. simpl. split; [done |].
    intros t Ht. rewrite Forall_forall in Hkeys. by rewrite (Hkeys t Ht).
Qed.
End fallback.

(** Keys that are array indices come first, in ascending order, and a
    host name that is a key of [Object.prototype] goes to ["Other"]. Here
    the host name of an address is the address. *)
Example simpleGroupByDomain_order :
  Cluster.name <$>
    simpleGroupByDomain Some
      [tabAt "b.example" "g" 1; tabAt "12" "g" 2; tabAt "toString" "g" 3;
       tabAt "3" "g" 4; tabAt "b.example" "g" 5]
  = [Some "3"; Some "12"; Some "b.example"; Some "Other"].
Proof. reflexivity. Qed.

Example arrayIndex_canonical :
  JsObject.arrayIndex "4294967294" = Some 4294967294%N
  ∧ JsObject.arrayIndex "4294967295" = None
  ∧ JsObject.arrayIndex "012" = None
  ∧ JsObject.arrayIndex "0" = Some 0%N
  ∧ JsObject.arrayIndex "1e3" = None.
Proof. repeat split. Qed.

(** C7. A tab whose address parses, with host name ["constructor"], is
    not filed under its host name: the one cluster of the grouping is
    ["Other"]. *)
Theorem prototype_host_filed_under_other (hostname : string → option string) :
  hostname "http://constructor/" = Some "constructor" →
  simpleGroupByDomain hostname [tabAt "http://constructor/" "g1" 1000]
  = [Cluster.mk (Some "Other") [tabAt "http://constructor/" "g1" 1000]
       "Content from Other"].
Proof.
  intros Hhost. unfold simpleGroupByDomain. simpl foldl.
  unfold addTab. simpl url. simpl mbind. cbn [option_bind].
  rewrite Hhost. reflexivity.
Qed.

Lemma prototype_host_filed_under_other_witness :
  sampleHostname "http://constructor/" = Some "constructor"
  ∧ simpleGroupByDomain sampleHostname [tabAt "http://constructor/" "g1" 1000]
    = [Cluster.mk (Some "Other") [tabAt "http://constructor/" "g1" 1000]
         "Content from Other"].
Proof.
  split; [reflexivity |].
  exact (prototype_host_filed_under_other sampleHostname eq_refl).
Defined.

(** ** Further properties of the service worker *)

(** X13. Whatever the tabs and whatever their addresses, the fallback
    grouping files every tab exactly once, gives no two clusters the
    same name, and makes no empty cluster. *)
Theorem fallback_files_every_tab_once (hostname : string → option string)
    (ts : list TabData) :
  concat (Cluster.tabs <$> simpleGroupByDomain hostname ts) ≡ₚ ts
  ∧ NoDup (Cluster.name <$> simpleGroupByDomain hostname ts)
  ∧ ∀ c, c ∈ simpleGroupByDomain hostname ts → Cluster.tabs c ≠ [].
Proof.
  destruct (simpleGroupByDomain_partition hostname ts) as (Hp & Hnd & Hc).
  split; [done |]. split; [done |]. intros c Hin. by apply Hc.
Qed.

Lemma computeClusters_partition hostname ts :
  concat (Cluster.tabs <$> (computeClusters hostname ts).1) ≡ₚ ts.
Proof.
  unfold computeClusters. destruct ts as [| t ts]; [done |].
  apply simpleGroupByDomain_partition.
Qed.

(** X14. A relayed tab either leaves the store exactly as it was, or is
    appended after the tabs that were there; in that case the clusters
    stored with it hold every stored tab exactly once. Nothing that was
    stored is changed, moved or removed. *)
Theorem relayed_tab_appends_or_nothing (hostname : string → option string)
    (tabData : TabData) (st : Store) :
  (handleSharedTab hostname tabData st).1 = st
  ∨ (sharedTabs (handleSharedTab hostname tabData st).1
       = sharedTabs st ++ [tabData]
     ∧ concat (Cluster.tabs <$>
         aiClusters (handleSharedTab hostname tabData st).1)
       ≡ₚ sharedTabs st ++ [tabData]).
Proof.
  unfold handleSharedTab.
  destruct (List.find (isDuplicateOf tabData) (sharedTabs st)); [by left |].
  destruct (existsb (isEchoOf tabData) (sharedTabs st)); [by left |].
  right.
  pose proof (computeClusters_partition hostname (sharedTabs st ++ [tabData])) as Hp.
  destruct (computeClusters hostname (sharedTabs st ++ [tabData])).
  by split.
Qed.

(** X15. A snapshot replaces what was stored: the tabs and annotations
    kept afterwards are those of the snapshot (none for a missing
    field), whatever was kept before, and the clusters stored with them
    hold every tab of the snapshot exactly once. *)
Theorem snapshot_replaces_what_was_stored (hostname : string → option string)
    (snapshotTabs : option (list TabData))
    (snapshotAnnotations : option (list Server.Annotation)) (loc : Local) :
  sharedTabs (store (handleGroupData hostname snapshotTabs snapshotAnnotations loc).1)
    = default [] snapshotTabs
  ∧ annotations (handleGroupData hostname snapshotTabs snapshotAnnotations loc).1
    = default [] snapshotAnnotations
  ∧ concat (Cluster.tabs <$> aiClusters
      (store (handleGroupData hostname snapshotTabs snapshotAnnotations loc).1))
    ≡ₚ default [] snapshotTabs
  ∧ ∀ loc', memberCounts loc' = memberCounts loc →
      handleGroupData hostname snapshotTabs snapshotAnnotations loc'
      = handleGroupData hostname snapshotTabs snapshotAnnotations loc.
Proof.
  unfold handleGroupData.
  pose proof (computeClusters_partition hostname (default [] snapshotTabs)) as Hp.
  destruct (computeClusters hostname (default [] snapshotTabs)) as [clusters ai].
  split_and!; [done .. |]. intros loc' Hm. by rewrite Hm.
Qed.

(** X16. No answer of the classifier adds, removes or reorders a stored
    tab; and after an answer that reports an error the clusters stored
    are the fallback grouping, which holds every stored tab exactly
    once. *)
Theorem classifier_failure_falls_back (hostname : string → option string)
    (rs : list Response) (message : string) (st : Store) :
  message ≠ "" →
  sharedTabs (arrivals hostname rs st) = sharedTabs st
  ∧ aiClusters
      (updateAIClusters_response hostname
         (Some (mkResponse (Some message) None)) st).1
    = simpleGroupByDomain hostname (sharedTabs st)
  ∧ concat (Cluster.tabs <$> aiClusters
      (updateAIClusters_response hostname
         (Some (mkResponse (Some message) None)) st).1)
    ≡ₚ sharedTabs st.
Proof.
  intros Hm. split_and!.
  - unfold arrivals. revert st. induction rs as [| r rs IH]; intros st; [done |].
    simpl. rewrite IH. unfold updateAIClusters_response, handleTabsCategorized.
    destruct (resp_clusters r); simpl; [done |].
    by destruct (truthy (resp_error r)).
  - simpl. by rewrite bool_decide_eq_false_2.
  - simpl. rewrite bool_decide_eq_false_2 by done. simpl.
    apply simpleGroupByDomain_partition.
Qed.

Lemma classifier_failure_falls_back_witness :
  Cluster.name <$> aiClusters
    (updateAIClusters_response sampleHostname
       (Some (mkResponse (Some "Invalid response structure") None))
       (mkStore [tabA; tabB] [])).1
  = [Some "docs.example.org"; Some "news.example.com"].
Proof.
  destruct (classifier_failure_falls_back sampleHostname [] "Invalid response structure"
              (mkStore [tabA; tabB] [])) as (_ & H2 & _); [done |].
  by rewrite H2.
Defined.

Lemma find_none_all {A} (f : A → bool) (l : list A) x :
  List.find f l = None → x ∈ l → f x = false.
Proof. intros Hf Hx%list_elem_of_In. by apply (find_none _ _ Hf). Qed.

Lemma existsb_elem {A} (f : A → bool) (l : list A) x :
  x ∈ l → f x = true → existsb f l = true.
Proof.
  intros Hx%list_elem_of_In Hfx. apply existsb_exists. by exists x.
Qed.

(** X17. The record [shareTab] stores locally and sends is never stored a
    second time when the server sends it back: whoever the server says
    shared it and whatever the server's clock, [handleSharedTab] leaves
    a store that holds the local record as it is. *)
Theorem own_share_is_not_stored_twice (hostname : string → option string)
    (tab : ChromeTab) (now : Z) (session : Session) (st st' : Store)
    (c : string) (now' : Z) :
  truthy (currentGroupId session) = true →
  let sharedTab :=
    mkTab (chrome_id tab) (chrome_title tab) (chrome_url tab)
      (Some "No summary available") (Some now) (currentGroupId session) None in
  sharedTabs (shareTab tab now session st).1 = sharedTabs st ++ [sharedTab]
  ∧ (sharedTab ∈ sharedTabs st' →
     (handleSharedTab hostname
        (Server.completeTabData (Some sharedTab) c now') st').1 = st').
Proof.
  intros Hg sharedTab. split.
  - unfold shareTab. by rewrite Hg.
  - intros Hin. unfold handleSharedTab.
    destruct (List.find _ (sharedTabs st')) as [e |] eqn:Hfind; [done |].
    pose proof (find_none_all _ _ _ Hfind Hin) as Hdup.
    rewrite (existsb_elem _ _ sharedTab Hin); [done |].
    unfold isDuplicateOf, isEchoOf, farApart, within in *. simpl in *.
    rewrite !bool_decide_eq_true_2 in * by done. simpl in *.
    apply bool_decide_eq_false in Hdup. apply bool_decide_eq_true. lia.
Qed.

Lemma own_share_is_not_stored_twice_witness :
  let session := mkSession (Some "g1") (Some Server.OPEN) in
  let tab := mkChromeTab (Some 7%Z) (Some "Docs") (Some "https://docs.example.org/a") in
  let st := (shareTab tab 1000 session (mkStore [] [])).1 in
  length (sharedTabs st) = 1
  ∧ (handleSharedTab sampleHostname
       (Server.completeTabData (head (sharedTabs st)) "a" 9000) st).1 = st.
Proof.
  intros session tab st. split; [reflexivity |].
  apply (proj2 (own_share_is_not_stored_twice sampleHostname tab 1000 session
                  (mkStore [] []) st "a" 9000 eq_refl)).
  left.
Defined.

(** X18. No envelope the server emits sets a member count in the worker:
    the worker listens for [group_update], which the server never
    sends, and has no case for [group_joined], [member_joined] and
    [member_left], which leave everything it stores as it is. *)
Theorem member_counts_never_arrive (hostname : string → option string)
    (decodeClusters : option string → list Cluster.t) (m : Server.Outbound)
    (loc : Local) :
  memberCounts (handleWebSocketMessage hostname (onWire decodeClusters m) loc).1
    = memberCounts loc
  ∧ (∀ g n, group_info_updated g n
            ∉ (handleWebSocketMessage hostname (onWire decodeClusters m) loc).2)
  ∧ (∀ g c n,
       m = Server.group_joined g n ∨ m = Server.member_joined c n
       ∨ m = Server.member_left c n →
       handleWebSocketMessage hostname (onWire decodeClusters m) loc = (loc, [])).
Proof.
  split_and!.
  - destruct m; simpl; try done.
    unfold handleGroupData. by destruct (computeClusters _ _).
  - intros g n.
    assert (∃ l, (handleWebSocketMessage hostname (onWire decodeClusters m) loc).2
                 = effect <$> l) as [l ->].
    { destruct m; try (by exists []); by eexists. }
    by intros (e & [=] & _)%list_elem_of_fmap.
  - intros g c n [-> | [-> | ->]]; done.
Qed.

End WorkerProps.

(** ** The offscreen document *)

Module OffscreenProps.
Import Offscreen.

Lemma at_index_inRange tabs index :
  is_Some (at_index tabs index) ↔ inRange tabs index.
Proof.
  unfold at_index, inRange. destruct (Z.leb_spec 0 index) as [Hle | Hlt].
  - rewrite lookup_lt_is_Some. lia.
  - split; [intros [? [=]] | lia].
Qed.

Lemma at_index_of_nat tabs (i : nat) : at_index tabs (Z.of_nat i) = tabs !! i.
Proof.
  unfold at_index. rewrite Nat2Z.id.
  destruct (Z.leb_spec 0 (Z.of_nat i)); [done | lia].
Qed.

Lemma omap_at_index_filter tabs (indices : list Z) :
  omap (at_index tabs) (filter (inRange tabs) indices)
  = omap (at_index tabs) indices.
Proof.
  induction indices as [| i indices IH]; [done |].
  rewrite filter_cons. case_decide as Hi; csimpl; rewrite IH; [done |].
  destruct (at_index tabs i) eqn:Hat; [| done].
  exfalso. apply Hi, at_index_inRange. eauto.
Qed.

Lemma omap_lookup_seq (pre tabs : list TabData) :
  omap (λ i, (pre ++ tabs) !! i) (seq (length pre) (length tabs)) = tabs.
Proof.
  revert pre. induction tabs as [| x tabs IH]; intros pre; [done |].
  csimpl. rewrite list_lookup_middle by done. f_equal.
  specialize (IH (pre ++ [x])).
  rewrite <- app_assoc, length_app in IH. simpl in IH.
  by replace (length pre + 1) with (S (length pre)) in IH by lia.
Qed.

Lemma omap_at_index_all tabs :
  omap (at_index tabs) (Z.of_nat <$> seq 0 (length tabs)) = tabs.
Proof.
  rewrite <- (omap_lookup_seq [] tabs) at 3. simpl.
  generalize (seq 0 (length tabs)). intros l.
  induction l as [| i l IH]; [done |].
  csimpl. by rewrite at_index_of_nat, IH.
Qed.

Lemma concat_omap {A B} (f : A → option B) (ls : list (list A)) :
  concat ((λ l : list A, omap f l) <$> ls) = omap f (concat ls).
Proof.
  induction ls as [| l ls IH]; [done |]. csimpl. by rewrite omap_app, IH.
Qed.

Section categorize.
Variable toLowerCase : string → string.

Lemma convert_tabs tabs cluster c :
  convert toLowerCase tabs cluster = ok c →
  Cluster.tabs c = omap (at_index tabs) (indicesOf cluster).
Proof.
  unfold convert, indicesOf.
  destruct (raw_tabs cluster) as [indices |]; [| done].
  destruct (truthy (raw_theme cluster)); [by intros [= <-] |].
  destruct (raw_name cluster); [by intros [= <-] | done].
Qed.

Lemma convertAll_tabs tabs raw cs :
  convertAll toLowerCase tabs raw = ok cs →
  Cluster.tabs <$> cs = (λ r, omap (at_index tabs) (indicesOf r)) <$> raw.
Proof.
  revert cs. induction raw as [| r raw IH]; intros cs; simpl.
  - by intros [= <-].
  - destruct (convert toLowerCase tabs r) as [c |] eqn:Hc; [| done].
    destruct (convertAll toLowerCase tabs raw) as [cs' |]; [| done].
    intros [= <-]. csimpl. by rewrite (convert_tabs _ _ _ Hc), (IH cs').
Qed.

Lemma concat_nonempty (cs : list Cluster.t) :
  concat (Cluster.tabs <$> filter (λ c, 0 < length (Cluster.tabs c)) cs)
  = concat (Cluster.tabs <$> cs).
Proof.
  induction cs as [| c cs IH]; [done |].
  rewrite filter_cons. case_decide as Hc; csimpl; rewrite IH; [done |].
  destruct (Cluster.tabs c); [done | simpl in Hc; lia].
Qed.

(** The tabs of the clusters [categorizeTabs] returns, one cluster
    after the other: the tabs at the indices of the answer that name
    one, in the order of the answer. *)
Lemma categorizeTabs_tabs tabs raw cs :
  categorizeTabs toLowerCase tabs (Some raw) = ok cs →
  concat (Cluster.tabs <$> cs)
  = omap (at_index tabs) (concat (indicesOf <$> raw)).
Proof.
  unfold categorizeTabs.
  destruct (convertAll toLowerCase tabs raw) as [cs' |] eqn:Hcs; [| done].
  intros [= <-]. rewrite concat_nonempty, (convertAll_tabs _ _ _ Hcs).
  rewrite <- concat_omap. by rewrite <- list_fmap_compose.
Qed.
End categorize.

(** An answer without a [clusters] array, and one with a cluster that
    has no [tabs], make [categorizeTabs] throw; the worker then publishes
    the fallback grouping of the stored tabs. *)
Example malformed_answers_fall_back :
  categorizeTabs asciiLowerCase [tabA; tabB] None
  = thrown "Invalid response structure"
  ∧ Cluster.name <$> Worker.aiClusters
      (publish sampleHostname asciiLowerCase [tabA; tabB]
         (Some [mkRaw (Some "Docs") None None]) (Worker.mkStore [tabA; tabB] []))
    = [Some "docs.example.org"; Some "news.example.com"].
Proof. split; reflexivity. Qed.

(** C1, as stated, fails. Of two tabs, an answer that lists index 0
    only publishes a partition without the second tab, and so does one
    that lists index 7 for it; an answer with no cluster publishes no
    cluster. No default cluster is made. *)
Lemma unlisted_tabs_are_dropped :
  let st := Worker.mkStore [tabA; tabB] [] in
  let one := mkRaw (Some "Docs") (Some [0%Z]) (Some "reading") in
  let far := mkRaw (Some "News") (Some [7%Z]) (Some "headlines") in
  Worker.aiClusters
    (publish sampleHostname asciiLowerCase [tabA; tabB] (Some [one]) st)
  = [Cluster.mk (Some "Docs") [tabA] "reading"]
  ∧ Worker.aiClusters
      (publish sampleHostname asciiLowerCase [tabA; tabB] (Some [one; far]) st)
    = [Cluster.mk (Some "Docs") [tabA] "reading"]
  ∧ Worker.aiClusters
      (publish sampleHostname asciiLowerCase [tabA; tabB] (Some []) st)
    = []
  ∧ tabB ∉ concat (Cluster.tabs <$> Worker.aiClusters
      (publish sampleHostname asciiLowerCase [tabA; tabB] (Some [one]) st)).
Proof.
  split; [reflexivity |]. split; [reflexivity |]. split; [reflexivity |].
  vm_compute. by intros [[=] | []%elem_of_nil]%elem_of_cons.
Qed.

(** A cluster [convert] returns is the cluster of the answer resolved. *)
Lemma convert_resolves toLowerCase tabs cluster c :
  convert toLowerCase tabs cluster = ok c →
  resolves toLowerCase tabs cluster c.
Proof.
  unfold convert, resolves, indicesOf.
  destruct (raw_tabs cluster) as [indices |]; [| done]. simpl.
  assert (omap (at_index tabs) indices
          = omap (λ index : Z, tabs !! Z.to_nat index)
              (filter (inRange tabs) indices)) as Htabs.
  { induction indices as [| i indices IH]; [done |].
    rewrite filter_cons. csimpl. case_decide as Hi.
    - assert (at_index tabs i = tabs !! Z.to_nat i) as ->.
      { unfold at_index. destruct (Z.leb_spec 0 i); [done |].
        unfold inRange in Hi. lia. }
      csimpl. by rewrite IH.
    - assert (at_index tabs i = None) as ->; [| done].
      destruct (at_index tabs i) eqn:Hat; [| done].
      exfalso. apply Hi, at_index_inRange. eauto. }
  destruct (truthy (raw_theme cluster)) eqn:Htheme.
  - intros [= <-]. simpl. split_and!; [done | done | | done].
    intros _. destruct (raw_theme cluster); [done | discriminate Htheme].
  - destruct (raw_name cluster) as [n |]; [| done].
    intros [= <-]. simpl. split_and!; [done | done | done |]. eauto.
Qed.

Lemma convertAll_resolves toLowerCase tabs raw cs :
  convertAll toLowerCase tabs raw = ok cs →
  Forall2 (resolves toLowerCase tabs) raw cs.
Proof.
  revert cs. induction raw as [| r raw IH]; intros cs; simpl.
  - intros [= <-]. constructor.
  - destruct (convert toLowerCase tabs r) as [c |] eqn:Hc; [| done].
    destruct (convertAll toLowerCase tabs raw) as [cs' |]; [| done].
    intros [= <-]. constructor; [by apply convert_resolves | by apply IH].
Qed.

(** A resolved cluster has a tab exactly when the cluster of the answer
    lists an index that names one. *)
Lemma resolves_nonempty toLowerCase tabs cluster c :
  resolves toLowerCase tabs cluster c →
  0 < length (Cluster.tabs c) ↔ listsATab tabs cluster.
Proof.
  intros (_ & -> & _). unfold listsATab.
  induction (indicesOf cluster) as [| i indices IH].
  - simpl. split; [lia | by intros ?%Exists_nil].
  - rewrite filter_cons, Exists_cons. case_decide as Hi.
    + csimpl.
      destruct (lookup_lt_is_Some_2 tabs (Z.to_nat i)) as [t ->];
        [unfold inRange in Hi; lia |].
      simpl. split; [by left | lia].
    + rewrite IH. tauto.
Qed.

Lemma Forall2_filter_both {A B} (R : A → B → Prop) (P : A → Prop) (Q : B → Prop)
    `{∀ x, Decision (P x)} `{∀ y, Decision (Q y)} l k :
  (∀ x y, R x y → (Q y ↔ P x)) →
  Forall2 R l k → Forall2 R (filter P l) (filter Q k).
Proof.
  intros HPQ. induction 1 as [| x y l k Hxy _ IH]; [constructor |].
  rewrite !filter_cons. specialize (HPQ x y Hxy).
  repeat case_decide; try tauto. by constructor.
Qed.

(** C1, amended. What is published for an answer that
    [categorizeTabs] accepts are the clusters it returns, and these are
    the clusters of the answer, in its order, each under its name with
    the indices it lists resolved to the tabs they name; a cluster that
    lists no index in range is removed, none is added, and an answer
    without clusters publishes none. An index out of range is dropped
    and an index the answer does not list is not filed anywhere. When
    the indices in range the answer lists are each index of the tab set
    once, the published clusters reference every tab exactly once. *)
Theorem published_clusters_resolve_listed_indices
    (hostname : string → option string) (toLowerCase : string → string)
    (tabs : list TabData) (raw : list RawCluster) (cs : list Cluster.t)
    (st : Worker.Store) :
  categorizeTabs toLowerCase tabs (Some raw) = ok cs →
  Worker.aiClusters (publish hostname toLowerCase tabs (Some raw) st) = cs
  ∧ Forall2 (resolves toLowerCase tabs) (filter (listsATab tabs) raw) cs
  ∧ length cs ≤ length raw
  ∧ (raw = [] → cs = [])
  ∧ concat (Cluster.tabs <$> cs)
    = omap (at_index tabs) (concat (indicesOf <$> raw))
  ∧ (filter (inRange tabs) (concat (indicesOf <$> raw))
       ≡ₚ Z.of_nat <$> seq 0 (length tabs) →
     concat (Cluster.tabs <$> cs) ≡ₚ tabs).
Proof.
  intros Hcs.
  assert (Forall2 (resolves toLowerCase tabs) (filter (listsATab tabs) raw) cs)
    as Hres.
  { unfold categorizeTabs in Hcs.
    destruct (convertAll toLowerCase tabs raw) as [cs' |] eqn:Hcs'; [| done].
    injection Hcs as <-.
    apply (Forall2_filter_both _ (listsATab tabs)
             (λ c, 0 < length (Cluster.tabs c)));
      [| by apply convertAll_resolves].
    intros r c Hrc. by apply (resolves_nonempty toLowerCase). }
  split_and!.
  - unfold publish, respond. by rewrite Hcs.
  - exact Hres.
  - rewrite <- (Forall2_length _ _ _ Hres). apply length_filter.
  - intros ->. by apply Forall2_nil_inv_l in Hres.
  - by apply categorizeTabs_tabs in Hcs.
  - intros Hperm. rewrite (categorizeTabs_tabs _ _ _ _ Hcs).
    rewrite <- omap_at_index_filter, Hperm. by rewrite omap_at_index_all.
Qed.

Lemma published_clusters_resolve_listed_indices_witness :
  let raw :=
    [mkRaw (Some "News") (Some [1%Z; 9%Z]) None;
     mkRaw (Some "Lost") (Some [7%Z]) (Some "nowhere");
     mkRaw (Some "Docs") (Some [0%Z]) (Some "reading")] in
  let cs :=
    [Cluster.mk (Some "News") [tabB] "Collection of news content";
     Cluster.mk (Some "Docs") [tabA] "reading"] in
  categorizeTabs asciiLowerCase [tabA; tabB] (Some raw) = ok cs
  ∧ Worker.aiClusters
      (publish sampleHostname asciiLowerCase [tabA; tabB] (Some raw)
         (Worker.mkStore [tabA; tabB] [])) = cs
  ∧ Forall2 (resolves asciiLowerCase [tabA; tabB])
      (filter (listsATab [tabA; tabB]) raw) cs
  ∧ length cs ≤ length raw
  ∧ concat (Cluster.tabs <$> cs) ≡ₚ [tabA; tabB].
Proof.
  intros raw cs.
  destruct (published_clusters_resolve_listed_indices sampleHostname
              asciiLowerCase [tabA; tabB] raw cs
              (Worker.mkStore [tabA; tabB] []) eq_refl)
    as (H1 & H2 & H3 & _ & _ & H6).
  split; [reflexivity |]. split; [exact H1 |]. split; [exact H2 |].
  split; [exact H3 |].
  apply H6. vm_compute. apply perm_swap.
Defined.

(** ** Further properties of the offscreen document *)

Section categorize_more.
Variable toLowerCase : string → string.

Lemma at_index_elem tabs index t : at_index tabs index = Some t → t ∈ tabs.
Proof.
  unfold at_index. destruct (0 <=? index)%Z; [| done].
  apply list_elem_of_lookup_2.
Qed.

Lemma convert_ok tabs cluster c :
  convert toLowerCase tabs cluster = ok c →
  convertible cluster ∧ Cluster.name c = raw_name cluster
  ∧ ∀ t, t ∈ Cluster.tabs c → t ∈ tabs.
Proof.
  unfold convert, convertible.
  destruct (raw_tabs cluster) as [indices |]; [| done].
  destruct (truthy (raw_theme cluster)) eqn:Htheme.
  - intros [= <-]. simpl. split_and!; [eauto | by left | done |].
    intros t (i & _ & Hi)%list_elem_of_omap. by eapply at_index_elem.
  - destruct (raw_name cluster) as [n |] eqn:Hname; [| done].
    intros [= <-]. simpl. split_and!; [eauto | right; eauto | done |].
    intros t (i & _ & Hi)%list_elem_of_omap. by eapply at_index_elem.
Qed.

Lemma convert_thrown tabs cluster message :
  convert toLowerCase tabs cluster = thrown message →
  message ≠ "" ∧ ¬ convertible cluster.
Proof.
  unfold convert, convertible.
  destruct (raw_tabs cluster) as [indices |].
  - destruct (truthy (raw_theme cluster)); [done |].
    destruct (raw_name cluster); [done |].
    intros [= <-]. split; [done |]. intros [_ [? | [? ?]]]; done.
  - intros [= <-]. split; [done |]. intros [[? ?] _]. done.
Qed.

Lemma convertAll_ok tabs raw cs :
  convertAll toLowerCase tabs raw = ok cs →
  Forall convertible raw ∧ length cs = length raw
  ∧ ∀ c, c ∈ cs → ∃ r, r ∈ raw ∧ convert toLowerCase tabs r = ok c.
Proof.
  revert cs. induction raw as [| r raw IH]; intros cs; simpl.
  - intros [= <-]. split_and!; [constructor | done |].
    by intros c ?%elem_of_nil.
  - destruct (convert toLowerCase tabs r) as [c0 |] eqn:Hc0; [| done].
    destruct (convertAll toLowerCase tabs raw) as [cs' |]; [| done].
    intros [= <-]. destruct (IH cs' eq_refl) as (Hraw & Hlen & Hcs).
    split_and!.
    + constructor; [by apply convert_ok in Hc0 as [? _] | done].
    + simpl. by rewrite Hlen.
    + intros c [-> | Hin]%elem_of_cons.
      * exists r. split; [left | done].
      * destruct (Hcs c Hin) as (r' & Hr' & Hc). exists r'. split; [by right | done].
Qed.

Lemma convertAll_thrown tabs raw message :
  convertAll toLowerCase tabs raw = thrown message →
  message ≠ "" ∧ ¬ Forall convertible raw.
Proof.
  induction raw as [| r raw IH]; simpl; [done |].
  destruct (convert toLowerCase tabs r) as [c0 |] eqn:Hc0.
  - destruct (convertAll toLowerCase tabs raw) as [cs' |]; [done |].
    intros [= <-]. destruct (IH eq_refl) as [Hm Hraw].
    split; [done |]. intros [_ ?]%Forall_cons. done.
  - intros [= <-]. apply convert_thrown in Hc0 as [Hm Hr].
    split; [done |]. intros [? _]%Forall_cons. done.
Qed.

Lemma categorizeTabs_thrown tabs parsed message :
  categorizeTabs toLowerCase tabs parsed = thrown message →
  message ≠ "" ∧ ¬ ∃ raw, parsed = Some raw ∧ Forall convertible raw.
Proof.
  unfold categorizeTabs. destruct parsed as [raw |].
  - destruct (convertAll toLowerCase tabs raw) as [cs |] eqn:Hcs; [done |].
    intros [= <-]. apply convertAll_thrown in Hcs as [Hm Hraw].
    split; [done |]. intros (raw' & [= <-] & ?). done.
  - intros [= <-]. split; [done |]. intros (raw' & [=] & _).
Qed.

(** X19. The clusters [categorizeTabs] returns come from the answer and
    from the tab set: there are no more of them than the answer has,
    none is empty, each carries the name of a cluster of the answer,
    and every tab in them is a tab of the set that was sent. *)
Theorem returned_clusters_come_from_the_answer (tabs : list TabData)
    (raw : list RawCluster) (cs : list Cluster.t) :
  categorizeTabs toLowerCase tabs (Some raw) = ok cs →
  length cs ≤ length raw
  ∧ ∀ c, c ∈ cs →
      Cluster.tabs c ≠ []
      ∧ (∀ t, t ∈ Cluster.tabs c → t ∈ tabs)
      ∧ ∃ r, r ∈ raw ∧ Cluster.name c = raw_name r.
Proof.
  unfold categorizeTabs.
  destruct (convertAll toLowerCase tabs raw) as [cs' |] eqn:Hcs; [| done].
  intros [= <-]. apply convertAll_ok in Hcs as (_ & Hlen & Hcs). split.
  - rewrite <- Hlen. apply length_filter.
  - intros c [Hne Hin]%list_elem_of_filter.
    destruct (Hcs c Hin) as (r & Hr & Hc).
    apply convert_ok in Hc as (_ & Hname & Htabs).
    split_and!; [| done | by exists r].
    intros Hnil. rewrite Hnil in Hne. simpl in Hne. lia.
Qed.

(** X20. [categorizeTabs] returns clusters exactly for an answer whose
    [clusters] is an array of clusters that each have a [tabs] array
    and either a theme that is not empty or, failing that, a name: the
    name is read only to make a theme, so a cluster with a theme and no
    name is taken. For every other answer it throws, with a message
    that is not empty. *)
Theorem categorizeTabs_accepts_exactly (tabs : list TabData)
    (parsed : option (list RawCluster)) :
  match categorizeTabs toLowerCase tabs parsed with
  | ok _ => ∃ raw, parsed = Some raw ∧ Forall convertible raw
  | thrown message =>
      message ≠ "" ∧ ¬ ∃ raw, parsed = Some raw ∧ Forall convertible raw
  end.
Proof.
  destruct (categorizeTabs toLowerCase tabs parsed) as [cs | message] eqn:Hcat;
    [| by apply (categorizeTabs_thrown tabs)].
  unfold categorizeTabs in Hcat. destruct parsed as [raw |]; [| done].
  destruct (convertAll toLowerCase tabs raw) as [cs' |] eqn:Hcs; [| done].
  exists raw. split; [done |]. by apply convertAll_ok in Hcs as [? _].
Qed.

(** X21. When [categorizeTabs] throws, what the worker publishes is the
    fallback grouping of the tabs it has stored, which holds every one
    of them exactly once; the stored tabs are as they were. *)
Theorem rejected_answer_publishes_fallback (hostname : string → option string)
    (tabs : list TabData) (parsed : option (list RawCluster))
    (message : string) (st : Worker.Store) :
  categorizeTabs toLowerCase tabs parsed = thrown message →
  Worker.aiClusters (publish hostname toLowerCase tabs parsed st)
    = Worker.simpleGroupByDomain hostname (Worker.sharedTabs st)
  ∧ concat (Cluster.tabs <$>
      Worker.aiClusters (publish hostname toLowerCase tabs parsed st))
    ≡ₚ Worker.sharedTabs st
  ∧ Worker.sharedTabs (publish hostname toLowerCase tabs parsed st)
    = Worker.sharedTabs st.
Proof.
  intros Hcat. pose proof (categorizeTabs_thrown _ _ _ Hcat) as [Hm _].
  unfold publish, respond. rewrite Hcat. simpl.
  rewrite bool_decide_eq_false_2 by done. simpl.
  split_and!; [done | | done].
  apply WorkerProps.simpleGroupByDomain_partition.
Qed.
End categorize_more.

Lemma returned_clusters_come_from_the_answer_witness :
  let raw :=
    [mkRaw (Some "News") (Some [1%Z; 9%Z]) None;
     mkRaw (Some "Void") (Some [5%Z]) (Some "nothing in range")] in
  length [Cluster.mk (Some "News") [tabB] "Collection of news content"]
  ≤ length raw.
Proof.
  intros raw.
  exact (proj1 (returned_clusters_come_from_the_answer asciiLowerCase
                  [tabA; tabB] raw
                  [Cluster.mk (Some "News") [tabB] "Collection of news content"]
                  eq_refl)).
Defined.

Lemma rejected_answer_publishes_fallback_witness :
  Cluster.name <$> Worker.aiClusters
    (publish sampleHostname asciiLowerCase [tabA; tabB]
       (Some [mkRaw None (Some [0%Z]) None]) (Worker.mkStore [tabA; tabB] []))
  = [Some "docs.example.org"; Some "news.example.com"].
Proof.
  destruct (rejected_answer_publishes_fallback asciiLowerCase sampleHostname
              [tabA; tabB] (Some [mkRaw None (Some [0%Z]) None])
              "Cannot read properties of undefined (reading 'toLowerCase')"
              (Worker.mkStore [tabA; tabB] []) eq_refl) as (H1 & _ & _).
  by rewrite H1.
Defined.

End OffscreenProps.

(** ** The worker's connection to the server *)

Module RelayProps.
Import Relay.

Lemma spaced_cons gap t times :
  Forall (λ t', (t + gap ≤ t')%Z) times → spaced gap times →
  spaced gap (t :: times).
Proof.
  intros Hall Hs. simpl. split; [| done].
  destruct times as [| t' times]; [done |]. by apply Forall_cons in Hall as [? _].
Qed.

Lemma initializeWebSocket_cases now throws st :
  (initializeWebSocket now throws st = (st, []))
  ∨ ((lastConnectionAttempt st + CONNECTION_COOLDOWN ≤ now)%Z
     ∧ lastConnectionAttempt (initializeWebSocket now throws st).1 = now
     ∧ connectionAttemptInProgress (initializeWebSocket now throws st).1 = false
     ∧ openings ((λ step, (now, step)) <$> (initializeWebSocket now throws st).2)
       = if throws then [] else [now]).
Proof.
  unfold initializeWebSocket.
  destruct (connectionAttemptInProgress st); [by left |].
  case_decide as Hcool; [by left |]. right.
  split; [lia |].
  destruct throws, (wsConnection st); by split_and!.
Qed.

Lemma openings_app l l' : openings (l ++ l') = openings l ++ openings l'.
Proof. apply omap_app. Qed.

Lemma calls_openings cs st :
  Forall (λ t, (lastConnectionAttempt st + CONNECTION_COOLDOWN ≤ t)%Z)
    (openings (calls cs st).2)
  ∧ spaced CONNECTION_COOLDOWN (openings (calls cs st).2).
Proof.
  revert st. induction cs as [| [now throws] cs IH]; intros st.
  - simpl. by split.
  - simpl. rewrite openings_app.
    destruct (initializeWebSocket_cases now throws st)
      as [Hskip | (Hcool & Hlast & _ & Hopen)].
    + rewrite Hskip. simpl. apply IH.
    + destruct (IH (initializeWebSocket now throws st).1) as [Hall Hs].
      rewrite Hlast in Hall. rewrite Hopen.
      assert (Forall (λ t, (lastConnectionAttempt st + CONNECTION_COOLDOWN ≤ t)%Z)
                (openings (calls cs (initializeWebSocket now throws st).1).2))
        as Hall'.
      { eapply Forall_impl; [exact Hall |]. unfold CONNECTION_COOLDOWN in *.
        simpl. intros t Ht. lia. }
      destruct throws; simpl.
      * by split.
      * split; [by constructor |]. by apply spaced_cons.
Qed.

(** X22. However often and whenever [initializeWebSocket] is called, two
    sockets are never opened less than five seconds apart, and none
    less than five seconds after the attempt before the calls. *)
Theorem sockets_open_five_seconds_apart (cs : list (Z * bool)) (st : Connection) :
  spaced 5000 (openings (calls cs st).2)
  ∧ Forall (λ t, (lastConnectionAttempt st + 5000 ≤ t)%Z)
      (openings (calls cs st).2).
Proof. destruct (calls_openings cs st). by split. Qed.

(** A call three seconds after an attempt opens nothing; a call five
    seconds after it closes the socket and opens the next. *)
Example call_within_cooldown_opens_nothing :
  let st := mkConnection None false 0 0 in
  (calls [(10000%Z, false); (13000%Z, false); (15000%Z, false)] st).2
  = [(10000%Z, open_socket 0); (15000%Z, close_socket 0);
     (15000%Z, open_socket 1)].
Proof. reflexivity. Qed.

End RelayProps.
